(** * reggc: reconciliation of a container registry against a cluster

    A shallow embedding of [gc.go].  The program lists the images stored in
    the registry at ["registry:5000"], lists the images declared by the pods
    of the cluster, deletes every registry image no pod refers to and then
    runs the registry's garbage collector inside the pod [registry-0].

    - Go strings are [string]s, [stringset = map[string]struct{}] is a
      [gset string].
    - The registry, the cluster and the remote-exec transports are outside
      the program: the registry contents are the state threaded through the
      calls, everything else the clients may answer is collected in [Env].
    - A function returning [error] is a computation in [M], which threads the
      registry, stops at the first error and records the requests issued.
    - [main] calls [run] at once and then every hour, logging the error of a
      cycle; what is modelled is one cycle, [run].

    The definitions come first, the properties of the program after them. *)

From stdpp Require Import base option list sets gmap strings.
From Stdlib Require Import Ascii String.

Local Open Scope string_scope.
Local Open Scope list_scope.
Local Open Scope stdpp_scope.

(** ** Strings: [strings.Index] and [strings.Cut] *)

Module strings.

Fixpoint chars (s : string) : list ascii :=
  match s with
  | EmptyString => []
  | String c s' => c :: chars s'
  end.

(** [s[i:]] *)
Fixpoint slice_from (i : nat) (s : string) : string :=
  match i, s with
  | O, _ => s
  | S i', String _ s' => slice_from i' s'
  | S _, EmptyString => EmptyString
  end.

(** [s[:i]] *)
Fixpoint slice_to (i : nat) (s : string) : string :=
  match i, s with
  | O, _ => EmptyString
  | S i', String c s' => String c (slice_to i' s')
  | S _, EmptyString => EmptyString
  end.

(** [strings.Index(s, sep)]: the index of the first instance of [sep] in
    [s]; [None] stands for [-1]. *)
Fixpoint Index (s sep : string) : option nat :=
  if String.prefix sep s then Some 0
  else match s with
       | EmptyString => None
       | String _ s' => S <$> Index s' sep
       end.

(** [strings.Cut(s, sep)]: slices [s] around the first instance of [sep]. *)
Definition Cut (s sep : string) : string * string * bool :=
  match Index s sep with
  | Some i => (slice_to i s, slice_from (i + String.length sep) s, true)
  | None => (s, "", false)
  end.

End strings.

(** ** Errors *)

(** An [error] is either produced by one of the client libraries or built by
    [fmt.Errorf]: the format and its [%q] operands, and for a format with
    [%w] the error it wraps. *)
Inductive error : Type :=
  | ApiError (msg : string)
  | Errorf (format : string) (operands : list string)
  | ErrorfW (format : string) (operands : list string) (wrapped : error).

Inductive result (A : Type) : Type :=
  | Ok (a : A)
  | Err (e : error).
Arguments Ok {A} a.
Arguments Err {A} e.

(** ** The outside world *)

(** [ref.Ref], with the fields the program sets. *)
Record Ref : Type := mkRef {
  Scheme : string;
  Registry : string;
  Repository : string;
  Tag : string;
}.

(** The pods of the cluster, with what the program reads of them. *)
Record Container : Type := { Image : string }.
Record Pod : Type := { Namespace : string; Containers : list Container }.

(** The two upgrade protocols of the remote-exec channel. *)
Inductive protocol : Type := SPDY | WebSocket.

(** The remote command: [PodExecOptions] and the pod it is posted to. *)
Record ExecRequest : Type := {
  Resource : string;
  Name : string;
  ExecNamespace : string;
  SubResource : string;
  Command : list string;
  Stdout : bool;
  Stderr : bool;
}.

(** What the program asks of the outside world, in the order it asks. *)
Inductive event : Type :=
  | EvRepoList (host : string)
  | EvTagList (r : Ref)
  | EvPodsList (namespace : string)
  | EvDeleteImage (img : string)   (* deleteImage is entered with img *)
  | EvTagDelete (r : Ref)
  | EvStream (p : protocol) (req : ExecRequest)
  | EvInfo (msg : string) (attrs : list (string * string)).

(** The tags stored in the registry at ["registry:5000"]: pairs of a
    repository and a tag. *)
Abbreviation registry := (gset (string * string)).
Abbreviation stringset := (gset string).

(** The answers of the outside world during one cycle.  A [Some e] is the
    call failing with [e].  The two [range] fields are the orders in which
    the two [for ... range regimgs] loops visit the keys of the map. *)
Record Env : Type := {
  InClusterConfig_err : option error;
  NewForConfig_err : option error;
  RepoList_err : option error;
  TagList_err : string → option error;
  TagDelete_err : registry → string → string → option error;
  cluster : list Pod;
  PodsList_err : option error;
  NewSPDYExecutor_err : option error;
  NewWebSocketExecutor_err : option error;
  ws_stream : string * option error;
  spdy_stream : string * option error;
  IsUpgradeFailure : error → bool;
  IsHTTPSProxyError : error → bool;
  range_filter : stringset → list string;
  range_delete : stringset → list string;
}.

(** Go leaves the iteration order of a map open: any order that visits each
    key once. *)
Definition range_ok (range : stringset → list string) : Prop :=
  ∀ m, range m ≡ₚ elements m.

(** ** Computations *)

Definition M (A : Type) : Type := registry → result A * registry * list event.

Definition M_ret {A} (a : A) : M A := λ σ, (Ok a, σ, []).

Definition M_bind {A B} (f : A → M B) (m : M A) : M B := λ σ,
  match m σ with
  | (Ok a, σ', t) => let '(r, σ'', t') := f a σ' in (r, σ'', t ++ t')
  | (Err e, σ', t) => (Err e, σ', t)
  end.

Global Instance M_mret : MRet M := @M_ret.
Global Instance M_mbind : MBind M := @M_bind.

(** [if err != nil { return fmt.Errorf(..., err) }] *)
Definition wrapped {A} (m : M A) (w : error → error) : M A := λ σ,
  match m σ with
  | (Ok a, σ', t) => (Ok a, σ', t)
  | (Err e, σ', t) => (Err (w e), σ', t)
  end.

Definition fail {A} (e : error) : M A := λ σ, (Err e, σ, []).
Definition emit (ev : event) : M unit := λ σ, (Ok (), σ, [ev]).

(** A call that does not touch the registry. *)
Definition call (ev : list event) (err : option error) : M unit := λ σ,
  match err with
  | Some e => (Err e, σ, ev)
  | None => (Ok (), σ, ev)
  end.

(** [for _, x := range l { if err := body(x); err != nil { return err } }] *)
Fixpoint for_each {A} (l : list A) (body : A → M unit) : M unit :=
  match l with
  | [] => mret ()
  | x :: l' => body x ≫= λ _, for_each l' body
  end.

(** [for _, x := range l { ... }] with an accumulator, leaving at the first
    error. *)
Fixpoint for_fold {A S} (l : list A) (s : S) (body : A → S → M S) : M S :=
  match l with
  | [] => mret s
  | x :: l' => body x s ≫= λ s', for_fold l' s' body
  end.

Definition res {A} (o : result A * registry * list event) : result A := o.1.1.
Definition final {A} (o : result A * registry * list event) : registry := o.1.2.
Definition trace {A} (o : result A * registry * list event) : list event := o.2.

(** ** The program *)

Section program.

Context (env : Env).

(** *** The registry client [rc]

    [rc] is configured with the single host ["registry:5000"]; a request
    for any other host cannot reach the registry. *)

Definition repositories (σ : registry) : list string :=
  elements (set_map fst σ : gset string).

Definition tags_of (repo : string) (σ : registry) : list string :=
  elements (set_map snd (filter (λ p, p.1 = repo) σ) : gset string).

Definition unknown_host (host : string) : error :=
  ApiError ("no such host: " +:+ host).

(** [rc.RepoList(ctx, host)] *)
Definition RepoList (host : string) : M (list string) := λ σ,
  if decide (host = "registry:5000") then
    match RepoList_err env with
    | Some e => (Err e, σ, [EvRepoList host])
    | None => (Ok (repositories σ), σ, [EvRepoList host])
    end
  else (Err (unknown_host host), σ, [EvRepoList host]).

(** [rc.TagList(ctx, r)] *)
Definition TagList (r : Ref) : M (list string) := λ σ,
  if decide (Registry r = "registry:5000") then
    match TagList_err env (Repository r) with
    | Some e => (Err e, σ, [EvTagList r])
    | None => (Ok (tags_of (Repository r) σ), σ, [EvTagList r])
    end
  else (Err (unknown_host (Registry r)), σ, [EvTagList r]).

(** [rc.TagDelete(ctx, r)]: a successful delete removes the tag. *)
Definition TagDelete (r : Ref) : M unit := λ σ,
  if decide (Registry r = "registry:5000") then
    match TagDelete_err env σ (Repository r) (Tag r) with
    | Some e => (Err e, σ, [EvTagDelete r])
    | None => (Ok (), σ ∖ {[(Repository r, Tag r)]}, [EvTagDelete r])
    end
  else (Err (unknown_host (Registry r)), σ, [EvTagDelete r]).

(** *** The cluster client [k8s]

    [k8s.CoreV1().Pods(namespace).List]: the empty namespace is
    [metav1.NamespaceAll]. *)
Definition PodsList (namespace : string) : M (list Pod) := λ σ,
  match PodsList_err env with
  | Some e => (Err e, σ, [EvPodsList namespace])
  | None =>
      (Ok (if decide (namespace = "") then cluster env
           else filter (λ pod, Namespace pod = namespace) (cluster env)),
       σ, [EvPodsList namespace])
  end.

(** *** [fetchRegistryImages] *)

Definition fetchRegistryImages : M stringset :=
  let imgs : stringset := ∅ in
  repos ← wrapped (RepoList "registry:5000")
                  (ErrorfW "could not get repository list: %w" []);
  for_fold repos imgs (λ repo imgs,
    tags ← wrapped (TagList {| Scheme := "reg"; Repository := repo;
                               Registry := "registry:5000"; Tag := "" |})
                   (ErrorfW "could not get tags for repository %q: %w" [repo]);
    mret (foldl (λ imgs tag,
                   {[ "ctr.lesiw.dev/" +:+ repo +:+ ":" +:+ tag ]} ∪ imgs)
                imgs tags)).

(** *** [fetchPodImages] *)

Definition fetchPodImages : M stringset :=
  let imgs : stringset := ∅ in
  pods ← PodsList "";
  mret (foldl (λ imgs pod,
                 foldl (λ imgs ctr, {[ Image ctr ]} ∪ imgs)
                       imgs (Containers pod))
              imgs pods).

(** *** [deleteImage] *)

Definition deleteImage (img : string) : M unit :=
  emit (EvDeleteImage img);;
  let '(_, repotag, ok) := strings.Cut img "/" in
  if negb ok then fail (Errorf "could not parse registry from %q" [img])
  else
    let '(repo, tag, ok) := strings.Cut repotag ":" in
    if negb ok
    then fail (Errorf "could not parse repo and tag from %q" [repotag])
    else
      wrapped (TagDelete {| Registry := "registry:5000"; Repository := repo;
                            Tag := tag; Scheme := "reg" |})
              (ErrorfW "could not delete %q: %w" [img]);;
      emit (EvInfo "deleted image" [("image", img)]).

(** *** [gcRegistry] *)

Definition gc_request : ExecRequest :=
  {| Resource := "pods"; Name := "registry-0"; ExecNamespace := "default";
     SubResource := "exec";
     Command := ["bin/registry"; "garbage-collect"; "--delete-untagged";
                 "/etc/docker/registry/config.yml"];
     Stdout := true; Stderr := true |}.

(** An executor's [StreamWithContext]: from the buffer behind
    [StreamOptions] to the buffer after the command has written to it, and
    the error returned ([None] is [nil]). *)
Definition Executor : Type := string → M (string * option error).

Definition stream (p : protocol) (req : ExecRequest)
    (answer : string * option error) : Executor := λ buf σ,
  (Ok (buf +:+ answer.1, answer.2), σ, [EvStream p req]).

Definition NewSPDYExecutor (method : string) (req : ExecRequest)
    : M Executor :=
  call [] (NewSPDYExecutor_err env);;
  mret (stream SPDY req (spdy_stream env)).

Definition NewWebSocketExecutor (method : string) (req : ExecRequest)
    : M Executor :=
  call [] (NewWebSocketExecutor_err env);;
  mret (stream WebSocket req (ws_stream env)).

(** [remotecommand.NewFallbackExecutor]: streams through [primary] and,
    when [shouldFallback] holds of what it returned, through [secondary]. *)
Definition NewFallbackExecutor (primary secondary : Executor)
    (shouldFallback : option error → bool) : Executor := λ buf,
  '(buf, err) ← primary buf;
  if shouldFallback err then secondary buf else mret (buf, err).

(** The two classifiers of [httpstream] answer [false] on [nil]. *)
Definition httpstream_IsUpgradeFailure (err : option error) : bool :=
  from_option (IsUpgradeFailure env) false err.
Definition httpstream_IsHTTPSProxyError (err : option error) : bool :=
  from_option (IsHTTPSProxyError env) false err.

Definition gcRegistry : M unit :=
  let req := gc_request in
  spdyExec ← wrapped (NewSPDYExecutor "POST" req)
                     (ErrorfW "could not create spdy executor: %w" []);
  wsExec ← wrapped (NewWebSocketExecutor "GET" req)
                   (ErrorfW "failed to create websocket executor: %w" []);
  let exec := NewFallbackExecutor wsExec spdyExec (λ err,
                httpstream_IsUpgradeFailure err
                || httpstream_IsHTTPSProxyError err) in
  '(buf, err) ← exec "";
  match err with
  | Some e =>
      if bool_decide (0 < String.length buf)%nat
      then fail (ErrorfW "could not exec registry garbage-collect: %w\n---\n%s"
                         [buf] e)
      else fail (ErrorfW "could not exec registry garbage-collect: %w" [] e)
  | None => emit (EvInfo "gc completed" [])
  end.

(** *** [run] *)

(** The first loop of [run]: [for img := range regimgs], visiting the keys
    in [order]; a key deleted before it is reached is not visited. *)
Definition unreferenced (order : list string) (regimgs podimgs : stringset)
    : stringset :=
  foldl (λ regimgs img,
           if decide (img ∈ regimgs) then
             if decide (img ∈ podimgs) then regimgs ∖ {[ img ]} else regimgs
           else regimgs)
        regimgs order.

Definition run : M unit :=
  wrapped (call [] (InClusterConfig_err env))
          (ErrorfW "could not get cluster config: %w" []);;
  wrapped (call [] (NewForConfig_err env))
          (ErrorfW "could not make kubernetes client: %w" []);;
  regimgs ← wrapped fetchRegistryImages
                    (ErrorfW "could not fetch registry images: %w" []);
  podimgs ← wrapped fetchPodImages
                    (ErrorfW "could not fetch pod images: %w" []);
  let regimgs := unreferenced (range_filter env regimgs) regimgs podimgs in
  for_each (range_delete env regimgs) (λ img,
    wrapped (deleteImage img)
            (ErrorfW "could not delete image %q: %w" [img]));;
  wrapped gcRegistry (ErrorfW "could not trigger registry gc: %w" []);;
  mret ().

End program.


(** ** Observations *)

(** What a trace shows: the images [deleteImage] was entered with, the
    deletion requests sent to the registry, the transports streamed
    through. *)
Definition attempts (t : list event) : list string :=
  omap (λ ev, match ev with EvDeleteImage img => Some img | _ => None end) t.

Definition requests (t : list event) : list Ref :=
  omap (λ ev, match ev with EvTagDelete r => Some r | _ => None end) t.

Definition streams (t : list event) : list protocol :=
  omap (λ ev, match ev with EvStream p _ => Some p | _ => None end) t.

(** The repository and the tag [deleteImage] cuts [img] into, when it gets
    past its two parse errors. *)
Definition parsed (img : string) : option (string * string) :=
  let '(_, repotag, ok) := strings.Cut img "/" in
  if ok then
    let '(repo, tag, ok) := strings.Cut repotag ":" in
    if ok then Some (repo, tag) else None
  else None.

(** The body of the loop of [fetchRegistryImages] over the repositories. *)
Definition tags_into (env : Env) (repo : string) (imgs : stringset)
    : M stringset :=
  tags ← wrapped (TagList env {| Scheme := "reg"; Repository := repo;
                                 Registry := "registry:5000"; Tag := "" |})
                 (ErrorfW "could not get tags for repository %q: %w" [repo]);
  mret (foldl (λ imgs tag,
                 {[ "ctr.lesiw.dev/" +:+ repo +:+ ":" +:+ tag ]} ∪ imgs)
              imgs tags).

(** The second loop of [run], over the keys in the order [imgs]. *)
Definition delete_loop (env : Env) (imgs : list string) : M unit :=
  for_each imgs (λ img,
    wrapped (deleteImage env img)
            (ErrorfW "could not delete image %q: %w" [img])).

(** The registry [σ'] is [σ] without the tags the images [imgs] are cut
    into. *)
Definition deleted (imgs : list string) (σ σ' : registry) : Prop :=
  (∀ img, img ∈ imgs → is_Some (parsed img))
  ∧ ∀ repo tag,
      (repo, tag) ∈ σ' ↔
      (repo, tag) ∈ σ ∧ ∀ img, img ∈ imgs → parsed img ≠ Some (repo, tag).

(** Whether the WebSocket attempt ends in a failure that the predicate
    given to [NewFallbackExecutor] accepts. *)
Definition ws_falls_back (env : Env) : bool :=
  match (ws_stream env).2 with
  | Some e => IsUpgradeFailure env e || IsHTTPSProxyError env e
  | None => false
  end.

(** How a cycle can end: before the deletions, at a deletion that fails, or
    after all of them. *)
Inductive outcome (env : Env) (σ : registry) : Prop :=
  | NotFetched (e : error) :
      res (run env σ) = Err e →
      (∀ img e', e ≠ ErrorfW "could not delete image %q: %w" [img] e') →
      final (run env σ) = σ →
      attempts (trace (run env σ)) = [] →
      requests (trace (run env σ)) = [] →
      streams (trace (run env σ)) = [] →
      outcome env σ
  | DeletionFailed (regimgs podimgs : stringset) (pre : list string)
      (img : string) (post : list string) (e : error) :
      res (fetchRegistryImages env σ) = Ok regimgs →
      res (fetchPodImages env σ) = Ok podimgs →
      range_delete env (regimgs ∖ podimgs) = pre ++ img :: post →
      res (run env σ)
      = Err (ErrorfW "could not delete image %q: %w" [img] e) →
      attempts (trace (run env σ)) = pre ++ [img] →
      streams (trace (run env σ)) = [] →
      deleted pre σ (final (run env σ)) →
      outcome env σ
  | AllDeleted (regimgs podimgs : stringset) :
      res (fetchRegistryImages env σ) = Ok regimgs →
      res (fetchPodImages env σ) = Ok podimgs →
      (res (run env σ) = Ok ()
       ∨ ∃ e, res (run env σ)
              = Err (ErrorfW "could not trigger registry gc: %w" [] e)) →
      attempts (trace (run env σ)) = range_delete env (regimgs ∖ podimgs) →
      deleted (range_delete env (regimgs ∖ podimgs)) σ (final (run env σ)) →
      outcome env σ.

(** ** A registry and a cluster to try the program on *)

Module sample.

(** A world in which the calls named fail and all others succeed; the
    maps are visited in the order of [elements]. *)
Definition world (repos_err : option error)
    (tags_err : string → option error)
    (delete_err : string → string → option error)
    (pods_err : option error) (ws : string * option error) : Env :=
  {| InClusterConfig_err := None;
     NewForConfig_err := None;
     RepoList_err := repos_err;
     TagList_err := tags_err;
     TagDelete_err := λ _, delete_err;
     cluster :=
       [ {| Namespace := "default";
            Containers := [ {| Image := "ctr.lesiw.dev/a:v1" |} ] |};
         {| Namespace := "kube-system";
            Containers := [ {| Image := "registry.k8s.io/pause:3.10" |};
                            {| Image := "ctr.lesiw.dev/a:v1" |} ] |} ];
     PodsList_err := pods_err;
     NewSPDYExecutor_err := None;
     NewWebSocketExecutor_err := None;
     ws_stream := ws;
     spdy_stream := ("", None);
     IsUpgradeFailure := λ e,
       match e with
       | ApiError msg => String.eqb msg "unable to upgrade connection"
       | _ => false
       end;
     IsHTTPSProxyError := λ e,
       match e with
       | ApiError msg => String.eqb msg "proxy: unknown scheme: https"
       | _ => false
       end;
     range_filter := elements;
     range_delete := elements |}.

Definition quiet : Env :=
  world None (λ _, None) (λ _ _, None) None ("", None).

Definition no_catalog : Env :=
  world (Some (ApiError "connection refused")) (λ _, None) (λ _ _, None)
        None ("", None).

Definition no_tags : Env :=
  world None
        (λ repo, if String.eqb repo "b" then Some (ApiError "not found")
                 else None)
        (λ _ _, None) None ("", None).

Definition no_pods : Env :=
  world None (λ _, None) (λ _ _, None) (Some (ApiError "forbidden"))
        ("", None).

(** The tag [v2] of [b] cannot be deleted. *)
Definition stuck : Env :=
  world None (λ _, None)
        (λ repo tag, if String.eqb repo "b" then Some (ApiError "denied")
                     else None)
        None ("", None).

Definition ws_refused : Env :=
  world None (λ _, None) (λ _ _, None) None
        ("", Some (ApiError "unable to upgrade connection")).

Definition ws_unauthorized : Env :=
  world None (λ _, None) (λ _ _, None) None
        ("", Some (ApiError "unauthorized")).

Definition stored : registry :=
  {[ ("a", "v1"); ("b", "v2"); ("c", "v3"); ("d", "v4") ]}.

End sample.

(** ** [main] *)

(** Some container of some pod of the cluster declares [img]. *)
Definition declared (env : Env) (img : string) : Prop :=
  ∃ pod ctr, pod ∈ cluster env ∧ ctr ∈ Containers pod ∧ Image ctr = img.

(** [main], cut after the cycles whose worlds are given: [run] is called at
    once and again at each tick, on the registry the cycle before left; an
    error is handed to [slog.Error] and the loop goes on.  Each cycle gives
    its trace and the error logged, if any. *)
Fixpoint main (worlds : list Env) (σ : registry)
    : registry * list (list event * option error) :=
  match worlds with
  | [] => (σ, [])
  | env :: worlds' =>
      let '(err, σ', t) := run env σ in
      let logged := match err with Err e => Some e | Ok _ => None end in
      let '(σ'', log) := main worlds' σ' in
      (σ'', (t, logged) :: log)
  end.

(** [env] with other answers to the building of the two executors. *)
Definition with_executors (spdy ws : option error) (env : Env) : Env :=
  {| InClusterConfig_err := InClusterConfig_err env;
     NewForConfig_err := NewForConfig_err env;
     RepoList_err := RepoList_err env;
     TagList_err := TagList_err env;
     TagDelete_err := TagDelete_err env;
     cluster := cluster env;
     PodsList_err := PodsList_err env;
     NewSPDYExecutor_err := spdy;
     NewWebSocketExecutor_err := ws;
     ws_stream := ws_stream env;
     spdy_stream := spdy_stream env;
     IsUpgradeFailure := IsUpgradeFailure env;
     IsHTTPSProxyError := IsHTTPSProxyError env;
     range_filter := range_filter env;
     range_delete := range_delete env |}.

(** [env] with other answers to the two configuration calls of [run]. *)
Definition with_config (config client : option error) (env : Env) : Env :=
  {| InClusterConfig_err := config;
     NewForConfig_err := client;
     RepoList_err := RepoList_err env;
     TagList_err := TagList_err env;
     TagDelete_err := TagDelete_err env;
     cluster := cluster env;
     PodsList_err := PodsList_err env;
     NewSPDYExecutor_err := NewSPDYExecutor_err env;
     NewWebSocketExecutor_err := NewWebSocketExecutor_err env;
     ws_stream := ws_stream env;
     spdy_stream := spdy_stream env;
     IsUpgradeFailure := IsUpgradeFailure env;
     IsHTTPSProxyError := IsHTTPSProxyError env;
     range_filter := range_filter env;
     range_delete := range_delete env |}.

(** [env] with another cluster. *)
Definition with_cluster (pods : list Pod) (env : Env) : Env :=
  {| InClusterConfig_err := InClusterConfig_err env;
     NewForConfig_err := NewForConfig_err env;
     RepoList_err := RepoList_err env;
     TagList_err := TagList_err env;
     TagDelete_err := TagDelete_err env;
     cluster := pods;
     PodsList_err := PodsList_err env;
     NewSPDYExecutor_err := NewSPDYExecutor_err env;
     NewWebSocketExecutor_err := NewWebSocketExecutor_err env;
     ws_stream := ws_stream env;
     spdy_stream := spdy_stream env;
     IsUpgradeFailure := IsUpgradeFailure env;
     IsHTTPSProxyError := IsHTTPSProxyError env;
     range_filter := range_filter env;
     range_delete := range_delete env |}.

(** The garbage collector ends with an error after writing to its output. *)
Definition gc_fails : Env :=
  sample.world None (λ _, None) (λ _ _, None) None
    ("failed to garbage collect: unknown blob",
     Some (ApiError "command terminated with exit code 1")).

(** * Properties *)

Example Cut_image :
  strings.Cut "ctr.lesiw.dev/lesiw/reggc:latest" "/"
  = ("ctr.lesiw.dev", "lesiw/reggc:latest", true).
Proof. reflexivity. Qed.

Example Cut_no_separator :
  strings.Cut "busybox" "/" = ("busybox", "", false).
Proof. reflexivity. Qed.

Example parsed_first_colon :
  parsed "ctr.lesiw.dev/lesiw/reggc:v1:rc" = Some ("lesiw/reggc", "v1:rc").
Proof. reflexivity. Qed.

Ltac unfold_M :=
  unfold mbind, mret, M_mbind, M_mret, M_bind, M_ret,
    wrapped, fail, emit, call in *.

(** Closes a decidable goal on closed terms by evaluation. *)
Ltac by_evaluation := apply (bool_decide_unpack _); vm_compute; exact I.

(** ** Cutting around a one-byte separator *)

Section cut.

Import strings.

Lemma append_nil (s : string) : "" +:+ s = s.
Proof. reflexivity. Qed.

Lemma append_String (a : ascii) (s1 s2 : string) :
  String a s1 +:+ s2 = String a (s1 +:+ s2).
Proof. reflexivity. Qed.

Lemma append_assoc (s1 s2 s3 : string) :
  (s1 +:+ s2) +:+ s3 = s1 +:+ (s2 +:+ s3).
Proof.
  induction s1 as [|a s1 IH]; [done |].
  by rewrite !append_String, IH.
Qed.

Lemma length_append (s1 s2 : string) :
  String.length (s1 +:+ s2) = String.length s1 + String.length s2.
Proof.
  induction s1 as [|a s1 IH]; [done |].
  rewrite append_String. simpl. by rewrite IH.
Qed.

Lemma chars_app (s1 s2 : string) : chars (s1 +:+ s2) = chars s1 ++ chars s2.
Proof.
  induction s1 as [|a s1 IH]; [done |].
  rewrite append_String. simpl. by rewrite IH.
Qed.

Lemma slice_to_app (h s : string) : slice_to (String.length h) (h +:+ s) = h.
Proof.
  induction h as [|a h IH]; [by destruct s |].
  rewrite append_String. simpl. by rewrite IH.
Qed.

Lemma slice_from_app (h s : string) :
  slice_from (String.length h) (h +:+ s) = s.
Proof. induction h as [|a h IH]; [done |]. by rewrite append_String. Qed.

Variable c : ascii.

Lemma prefix_sep (a : ascii) (s : string) :
  String.prefix (String c "") (String a s) = bool_decide (c = a).
Proof.
  simpl. destruct (ascii_dec c a) as [Heq|Hne].
  - rewrite bool_decide_eq_true_2 by done. by destruct s.
  - by rewrite bool_decide_eq_false_2.
Qed.

Lemma Index_String (a : ascii) (s : string) :
  Index (String a s) (String c "")
  = if bool_decide (c = a) then Some 0 else S <$> Index s (String c "").
Proof. cbn [Index]. by rewrite prefix_sep. Qed.

Lemma Index_absent (s : string) :
  c ∉ chars s → Index s (String c "") = None.
Proof.
  induction s as [|a s IH]; intros Hc; [done |].
  simpl in Hc. apply not_elem_of_cons in Hc as [Hne Hc].
  rewrite Index_String, bool_decide_eq_false_2 by done. by rewrite IH.
Qed.

Lemma Index_first (h rest : string) :
  c ∉ chars h →
  Index (h +:+ String c rest) (String c "") = Some (String.length h).
Proof.
  induction h as [|a h IH]; intros Hc.
  - by rewrite append_nil, Index_String, bool_decide_eq_true_2.
  - simpl in Hc. apply not_elem_of_cons in Hc as [Hne Hc].
    rewrite append_String, Index_String, bool_decide_eq_false_2 by done.
    by rewrite IH.
Qed.

Lemma Index_found (s : string) (i : nat) :
  Index s (String c "") = Some i →
  s = slice_to i s +:+ String c (slice_from (i + 1) s)
  ∧ c ∉ chars (slice_to i s).
Proof.
  revert i. induction s as [|a s IH]; intros i; [done |].
  rewrite Index_String. case_bool_decide as Hca.
  - intros [= <-]. subst a. split; [done | apply not_elem_of_nil].
  - destruct (Index s (String c "")) as [j|] eqn:Hj; [|done].
    intros [= <-]. destruct (IH j eq_refl) as [Hs Hc].
    cbn [slice_to slice_from Nat.add chars]. rewrite append_String. split.
    + f_equal. exact Hs.
    + by apply not_elem_of_cons.
Qed.

(** [Cut] finds the first separator: what is before it has none. *)
Lemma Cut_first (h rest : string) :
  c ∉ chars h → Cut (h +:+ String c rest) (String c "") = (h, rest, true).
Proof.
  intros Hc. unfold Cut. rewrite Index_first by done.
  rewrite slice_to_app.
  replace (h +:+ String c rest) with ((h +:+ String c "") +:+ rest)
    by (by rewrite append_assoc).
  rewrite <- length_append. by rewrite slice_from_app.
Qed.

Lemma Cut_absent (s : string) :
  c ∉ chars s → Cut s (String c "") = (s, "", false).
Proof. intros Hc. unfold Cut. by rewrite Index_absent. Qed.

Lemma Cut_found (s before after : string) :
  Cut s (String c "") = (before, after, true) →
  s = before +:+ String c after ∧ c ∉ chars before.
Proof.
  unfold Cut. destruct (Index s (String c "")) as [i|] eqn:Hi; [|done].
  intros [= <- <-]. by apply Index_found.
Qed.

Lemma Cut_not_found (s before after : string) :
  Cut s (String c "") = (before, after, false) → c ∉ chars s.
Proof.
  unfold Cut. destruct (Index s (String c "")) as [i|] eqn:Hi; [done |].
  intros _. induction s as [|a s IH]; [apply not_elem_of_nil |].
  rewrite Index_String in Hi. case_bool_decide; [done |].
  simpl. apply not_elem_of_cons. split; [done |].
  apply IH. by destruct (Index s (String c "")).
Qed.

End cut.

(** ** [deleteImage] *)

Section deleteImage.

Import strings.
Context (env : Env).

Lemma deleteImage_no_registry (img before after : string) (σ : registry) :
  Cut img "/" = (before, after, false) →
  deleteImage env img σ
  = (Err (Errorf "could not parse registry from %q" [img]),
     σ, [EvDeleteImage img]).
Proof. intros Hcut. unfold deleteImage. unfold_M. by rewrite Hcut. Qed.

Lemma deleteImage_no_tag (img host repotag before after : string)
    (σ : registry) :
  Cut img "/" = (host, repotag, true) →
  Cut repotag ":" = (before, after, false) →
  deleteImage env img σ
  = (Err (Errorf "could not parse repo and tag from %q" [repotag]),
     σ, [EvDeleteImage img]).
Proof.
  intros Hcut1 Hcut2. unfold deleteImage. unfold_M.
  by rewrite Hcut1; simpl; rewrite Hcut2.
Qed.

Lemma deleteImage_parsed (img host repotag repo tag : string) (σ : registry) :
  Cut img "/" = (host, repotag, true) →
  Cut repotag ":" = (repo, tag, true) →
  let r := {| Registry := "registry:5000"; Repository := repo;
              Tag := tag; Scheme := "reg" |} in
  deleteImage env img σ
  = match TagDelete_err env σ repo tag with
    | Some e => (Err (ErrorfW "could not delete %q: %w" [img] e),
                 σ, [EvDeleteImage img; EvTagDelete r])
    | None => (Ok (), σ ∖ {[ (repo, tag) ]},
               [EvDeleteImage img; EvTagDelete r;
                EvInfo "deleted image" [("image", img)]])
    end.
Proof.
  intros Hcut1 Hcut2 r. unfold deleteImage. unfold_M.
  rewrite Hcut1; simpl; rewrite Hcut2; simpl.
  unfold TagDelete; simpl. by destruct (TagDelete_err env σ repo tag).
Qed.

(** The image [host/repo:tag] is cut into [repo] and [tag]. *)
Lemma Cut_host (host repotag : string) :
  "/"%char ∉ chars host →
  Cut (host +:+ "/" +:+ repotag) "/" = (host, repotag, true).
Proof. intros Hh. by apply Cut_first. Qed.

Lemma Cut_repo (repo tag : string) :
  ":"%char ∉ chars repo →
  Cut (repo +:+ ":" +:+ tag) ":" = (repo, tag, true).
Proof. intros Hr. by apply Cut_first. Qed.

Lemma parsed_cuts (img host repotag repo tag : string) :
  Cut img "/" = (host, repotag, true) →
  Cut repotag ":" = (repo, tag, true) →
  parsed img = Some (repo, tag).
Proof. intros Hcut1 Hcut2. unfold parsed. by rewrite Hcut1, Hcut2. Qed.

End deleteImage.

Section deleteImage_claims.

Import strings.

(** C5. [deleteImage] rejects a malformed image string with a parse error
    and deletes nothing: a string with no ['/'], or whose remainder after
    the first ['/'] has no [':'], yields the error, the registry is
    unchanged and no request is sent; a string is split on its first ['/']
    and the remainder on its first [':']. *)
Theorem deleteImage_rejects_malformed (env : Env) (img : string)
    (σ : registry) :
  ("/"%char ∉ chars img →
     deleteImage env img σ
     = (Err (Errorf "could not parse registry from %q" [img]),
        σ, [EvDeleteImage img]))
  ∧ (∀ host repotag,
       img = host +:+ "/" +:+ repotag →
       "/"%char ∉ chars host → ":"%char ∉ chars repotag →
       deleteImage env img σ
       = (Err (Errorf "could not parse repo and tag from %q" [repotag]),
          σ, [EvDeleteImage img]))
  ∧ (∀ host repo tag,
       img = host +:+ "/" +:+ repo +:+ ":" +:+ tag →
       "/"%char ∉ chars host → ":"%char ∉ chars repo →
       requests (trace (deleteImage env img σ))
       = [ {| Scheme := "reg"; Registry := "registry:5000";
              Repository := repo; Tag := tag |} ]).
Proof.
  split; [|split].
  - intros Hno. eapply deleteImage_no_registry. by apply Cut_absent.
  - intros host repotag -> Hhost Hno.
    eapply deleteImage_no_tag; [by apply Cut_host | by apply Cut_absent].
  - intros host repo tag -> Hhost Hrepo.
    rewrite (deleteImage_parsed env _ host (repo +:+ ":" +:+ tag) repo tag)
      by (by apply Cut_host || by apply Cut_repo).
    by destruct (TagDelete_err env σ repo tag).
Qed.

Lemma deleteImage_rejects_malformed_witness :
  deleteImage sample.quiet "busybox" sample.stored
  = (Err (Errorf "could not parse registry from %q" ["busybox"]),
     sample.stored, [EvDeleteImage "busybox"])
  ∧ deleteImage sample.quiet "ctr.lesiw.dev/busybox" sample.stored
    = (Err (Errorf "could not parse repo and tag from %q" ["busybox"]),
       sample.stored, [EvDeleteImage "ctr.lesiw.dev/busybox"])
  ∧ requests (trace (deleteImage sample.quiet "ctr.lesiw.dev/a:v1"
                                 sample.stored))
    = [ {| Scheme := "reg"; Registry := "registry:5000";
           Repository := "a"; Tag := "v1" |} ].
Proof.
  split; [|split].
  - apply (proj1 (deleteImage_rejects_malformed
                    sample.quiet "busybox" sample.stored)).
    by_evaluation.
  - apply (proj1 (proj2 (deleteImage_rejects_malformed
                           sample.quiet "ctr.lesiw.dev/busybox"
                           sample.stored))
             "ctr.lesiw.dev" "busybox");
      [reflexivity | by_evaluation | by_evaluation].
  - apply (proj2 (proj2 (deleteImage_rejects_malformed
                           sample.quiet "ctr.lesiw.dev/a:v1" sample.stored))
             "ctr.lesiw.dev" "a" "v1");
      [reflexivity | by_evaluation | by_evaluation].
Defined.

(** C9. For a well-formed [host/repository:tag], [deleteImage] drops the
    host and sends the delete to ["registry:5000"] with the repository and
    the tag alone: two strings that differ only in their host cause the
    same request and leave the registry in the same state. *)
Theorem deleteImage_ignores_host (env : Env) (host1 host2 repo tag : string)
    (σ : registry) :
  "/"%char ∉ chars host1 → "/"%char ∉ chars host2 →
  ":"%char ∉ chars repo →
  let img1 := host1 +:+ "/" +:+ repo +:+ ":" +:+ tag in
  let img2 := host2 +:+ "/" +:+ repo +:+ ":" +:+ tag in
  requests (trace (deleteImage env img1 σ))
  = [ {| Scheme := "reg"; Registry := "registry:5000";
         Repository := repo; Tag := tag |} ]
  ∧ requests (trace (deleteImage env img2 σ))
    = requests (trace (deleteImage env img1 σ))
  ∧ final (deleteImage env img2 σ) = final (deleteImage env img1 σ).
Proof.
  intros Hh1 Hh2 Hrepo img1 img2. subst img1 img2.
  rewrite (deleteImage_parsed env _ host1 (repo +:+ ":" +:+ tag) repo tag)
    by (by apply Cut_host || by apply Cut_repo).
  rewrite (deleteImage_parsed env _ host2 (repo +:+ ":" +:+ tag) repo tag)
    by (by apply Cut_host || by apply Cut_repo).
  by destruct (TagDelete_err env σ repo tag).
Qed.

Lemma deleteImage_ignores_host_witness :
  requests (trace (deleteImage sample.quiet "ctr.lesiw.dev/lesiw/reggc:latest"
                               sample.stored))
  = [ {| Scheme := "reg"; Registry := "registry:5000";
         Repository := "lesiw/reggc"; Tag := "latest" |} ]
  ∧ requests (trace (deleteImage sample.quiet
                                 "registry:5000/lesiw/reggc:latest"
                                 sample.stored))
    = requests (trace (deleteImage sample.quiet
                                   "ctr.lesiw.dev/lesiw/reggc:latest"
                                   sample.stored))
  ∧ final (deleteImage sample.quiet "registry:5000/lesiw/reggc:latest"
                       sample.stored)
    = final (deleteImage sample.quiet "ctr.lesiw.dev/lesiw/reggc:latest"
                         sample.stored).
Proof.
  apply (deleteImage_ignores_host sample.quiet "ctr.lesiw.dev"
           "registry:5000" "lesiw/reggc" "latest" sample.stored);
    by_evaluation.
Defined.

End deleteImage_claims.

(** ** The two fetchers *)

Section fetch.

Import strings.
Context (env : Env).

Lemma elem_of_add_tags (f : string → string) (tags : list string)
    (imgs : stringset) (img : string) :
  img ∈ foldl (λ imgs tag, {[ f tag ]} ∪ imgs) imgs tags
  ↔ img ∈ imgs ∨ ∃ tag, tag ∈ tags ∧ img = f tag.
Proof.
  revert imgs. induction tags as [|tag tags IH]; intros imgs; simpl.
  - split; [auto | intros [?|(? & []%elem_of_nil & _)]; done].
  - rewrite IH, elem_of_union, elem_of_singleton. split.
    + intros [[->|?]|(tag' & ? & ->)]; [right | by left | right].
      * exists tag. split; [by left | done].
      * exists tag'. split; [by right | done].
    + intros [?|(tag' & [->|?]%elem_of_cons & ->)]; [by left; right | |].
      * by left; left.
      * right. by exists tag'.
Qed.

Lemma tags_into_eq (repo : string) (imgs : stringset) (σ : registry) :
  let r := {| Scheme := "reg"; Repository := repo;
              Registry := "registry:5000"; Tag := "" |} in
  tags_into env repo imgs σ
  = match TagList_err env repo with
    | Some e =>
        (Err (ErrorfW "could not get tags for repository %q: %w" [repo] e),
         σ, [EvTagList r])
    | None =>
        (Ok (foldl (λ imgs tag,
                      {[ "ctr.lesiw.dev/" +:+ repo +:+ ":" +:+ tag ]} ∪ imgs)
                   imgs (tags_of repo σ)),
         σ, [EvTagList r])
    end.
Proof.
  intros r. unfold tags_into, TagList. unfold_M. simpl.
  by destruct (TagList_err env repo).
Qed.

Ltac step_loop repo :=
  cbn [for_fold]; unfold mbind, M_mbind, M_bind; rewrite tags_into_eq;
  destruct (TagList_err env repo) eqn:?.

(** The loop leaves the registry as it is: it deletes nothing and runs
    nothing. *)
Lemma fetch_loop_frame (repos : list string) (imgs : stringset)
    (σ : registry) :
  final (for_fold repos imgs (tags_into env) σ) = σ
  ∧ attempts (trace (for_fold repos imgs (tags_into env) σ)) = []
  ∧ requests (trace (for_fold repos imgs (tags_into env) σ)) = []
  ∧ streams (trace (for_fold repos imgs (tags_into env) σ)) = [].
Proof.
  revert imgs. induction repos as [|repo repos IH]; intros imgs; [done |].
  step_loop repo; [done |].
  match goal with |- context [for_fold repos ?i _ _] =>
    destruct (IH i) as (Hfinal & Hattempts & Hrequests & Hstreams) end.
  destruct (for_fold repos _ (tags_into env) σ) as [[r σ'] t]. by destruct r.
Qed.

(** An inventory the loop returns is the cross product, on top of what was
    there already. *)
Lemma fetch_loop_found (repos : list string) (imgs found : stringset)
    (σ : registry) :
  res (for_fold repos imgs (tags_into env) σ) = Ok found →
  ∀ img, img ∈ found ↔
    img ∈ imgs
    ∨ ∃ repo tag, repo ∈ repos ∧ tag ∈ tags_of repo σ
                  ∧ img = "ctr.lesiw.dev/" +:+ repo +:+ ":" +:+ tag.
Proof.
  revert imgs. induction repos as [|repo repos IH]; intros imgs.
  - intros [= <-] img. split; [auto |].
    intros [?|(? & ? & []%elem_of_nil & _)]; done.
  - step_loop repo; [done |]. intros Hres img.
    match goal with _ : context [for_fold repos ?i _ _] |- _ =>
      specialize (IH i) end.
    destruct (for_fold repos _ (tags_into env) σ) as [[r σ'] t].
    destruct r as [found'|]; [|done]. injection Hres as ->.
    rewrite (IH eq_refl img), elem_of_add_tags. split.
    + intros [[?|(tag & ? & ->)]|(repo' & tag & ? & ? & ->)];
        [by left | right | right].
      * exists repo, tag. split; [by left | done].
      * exists repo', tag. split; [by right | done].
    + intros [?|(repo' & tag & [->|?]%elem_of_cons & ? & ->)];
        [by left; left | |].
      * left; right. by exists tag.
      * right. by exists repo', tag.
Qed.

Lemma fetch_loop_ok (repos : list string) (imgs : stringset) (σ : registry) :
  (∀ repo, repo ∈ repos → TagList_err env repo = None) →
  ∃ found, res (for_fold repos imgs (tags_into env) σ) = Ok found.
Proof.
  revert imgs. induction repos as [|repo repos IH]; intros imgs Hok.
  - by exists imgs.
  - step_loop repo.
    { rewrite (Hok repo) in * by (by left). done. }
    match goal with |- context [for_fold repos ?i _ _] =>
      destruct (IH i) as [found Hfound] end.
    { intros repo' ?. apply Hok. by right. }
    destruct (for_fold repos _ (tags_into env) σ) as [[r σ'] t].
    unfold res in Hfound. simpl in Hfound. subst r. by exists found.
Qed.

(** The first repository whose tags cannot be listed ends the loop. *)
Lemma fetch_loop_err (repos : list string) (imgs : stringset) (σ : registry)
    (repo : string) (e : error) :
  repo ∈ repos → TagList_err env repo = Some e →
  ∃ repo' e',
    repo' ∈ repos ∧ TagList_err env repo' = Some e'
    ∧ res (for_fold repos imgs (tags_into env) σ)
      = Err (ErrorfW "could not get tags for repository %q: %w" [repo'] e').
Proof.
  revert imgs. induction repos as [|repo' repos IH]; intros imgs Hin He.
  - by apply elem_of_nil in Hin.
  - step_loop repo'.
    { eexists repo', _. split; [by left | done]. }
    apply elem_of_cons in Hin as [->|Hin]; [congruence |].
    match goal with |- context [for_fold repos ?i _ _] =>
      destruct (IH i Hin He) as (repo'' & e'' & ? & ? & Hres) end.
    destruct (for_fold repos _ (tags_into env) σ) as [[r σ'] t].
    unfold res in Hres. simpl in Hres. subst r. exists repo'', e''. split; [by right | done].
Qed.

Lemma fetchRegistryImages_eq (σ : registry) :
  fetchRegistryImages env σ
  = match RepoList_err env with
    | Some e => (Err (ErrorfW "could not get repository list: %w" [] e),
                 σ, [EvRepoList "registry:5000"])
    | None =>
        let '(r, σ', t) := for_fold (repositories σ) ∅ (tags_into env) σ in
        (r, σ', EvRepoList "registry:5000" :: t)
    end.
Proof.
  unfold fetchRegistryImages, RepoList. unfold_M. simpl.
  by destruct (RepoList_err env).
Qed.

Lemma fetchRegistryImages_frame (σ : registry) :
  final (fetchRegistryImages env σ) = σ
  ∧ attempts (trace (fetchRegistryImages env σ)) = []
  ∧ requests (trace (fetchRegistryImages env σ)) = []
  ∧ streams (trace (fetchRegistryImages env σ)) = [].
Proof.
  rewrite fetchRegistryImages_eq. destruct (RepoList_err env); [done |].
  destruct (fetch_loop_frame (repositories σ) ∅ σ)
    as (Hfinal & Hattempts & Hrequests & Hstreams).
  by destruct (for_fold _ _ (tags_into env) σ) as [[r σ'] t].
Qed.

Lemma fetchRegistryImages_found (σ : registry) (imgs : stringset) :
  res (fetchRegistryImages env σ) = Ok imgs →
  ∀ img, img ∈ imgs ↔
    ∃ repo tag, repo ∈ repositories σ ∧ tag ∈ tags_of repo σ
                ∧ img = "ctr.lesiw.dev/" +:+ repo +:+ ":" +:+ tag.
Proof.
  rewrite fetchRegistryImages_eq. destruct (RepoList_err env); [done |].
  pose proof (fetch_loop_found (repositories σ) ∅ imgs σ) as Hfound.
  destruct (for_fold _ _ (tags_into env) σ) as [[r σ'] t].
  intros Hres img. rewrite (Hfound Hres img).
  split; [intros [[]%not_elem_of_empty|?] | intros ?]; auto.
Qed.

(** The pods' images, as the two loops of [fetchPodImages] collect them. *)
Lemma elem_of_pod_images (pods : list Pod) (imgs : stringset) (img : string) :
  img ∈ foldl (λ imgs pod,
                 foldl (λ imgs ctr, {[ Image ctr ]} ∪ imgs)
                       imgs (Containers pod))
              imgs pods
  ↔ img ∈ imgs
    ∨ ∃ pod ctr, pod ∈ pods ∧ ctr ∈ Containers pod ∧ Image ctr = img.
Proof.
  revert imgs. induction pods as [|pod pods IH]; intros imgs; simpl.
  - split; [auto | intros [?|(? & ? & []%elem_of_nil & _)]; done].
  - rewrite IH. clear IH.
    assert (∀ (ctrs : list Container) (imgs : stringset),
              img ∈ foldl (λ imgs ctr, {[ Image ctr ]} ∪ imgs) imgs ctrs
              ↔ img ∈ imgs ∨ ∃ ctr, ctr ∈ ctrs ∧ Image ctr = img) as Hctrs.
    { clear. induction ctrs as [|ctr ctrs IH]; intros imgs; simpl.
      - split; [auto | intros [?|(? & []%elem_of_nil & _)]; done].
      - rewrite IH, elem_of_union, elem_of_singleton. split.
        + intros [[->|?]|(ctr' & ? & <-)]; [right | by left | right].
          * exists ctr. split; [by left | done].
          * exists ctr'. split; [by right | done].
        + intros [?|(ctr' & [->|?]%elem_of_cons & <-)]; [by left; right | |].
          * by left; left.
          * right. by exists ctr'. }
    rewrite Hctrs. split.
    + intros [[?|(ctr & ? & <-)]|(pod' & ctr & ? & ? & <-)];
        [by left | right | right].
      * exists pod, ctr. split; [by left | done].
      * exists pod', ctr. split; [by right | done].
    + intros [?|(pod' & ctr & [->|?]%elem_of_cons & ? & <-)];
        [by left; left | |].
      * left; right. by exists ctr.
      * right. by exists pod', ctr.
Qed.

Lemma fetchPodImages_eq (σ : registry) :
  fetchPodImages env σ
  = match PodsList_err env with
    | Some e => (Err e, σ, [EvPodsList ""])
    | None =>
        (Ok (foldl (λ imgs pod,
                      foldl (λ imgs ctr, {[ Image ctr ]} ∪ imgs)
                            imgs (Containers pod))
                   ∅ (cluster env)),
         σ, [EvPodsList ""])
    end.
Proof.
  unfold fetchPodImages, PodsList. unfold_M. simpl.
  by destruct (PodsList_err env).
Qed.

End fetch.

Section fetch_claims.

Import strings.

(** C6. [fetchRegistryImages] returns exactly the cross product of the
    listed repositories and their listed tags, each pair composed as
    ["ctr.lesiw.dev/" + repo + ":" + tag]; when the repositories cannot be
    listed, or the tags of one of them cannot, it returns an error and no
    inventory. *)
Theorem fetchRegistryImages_cross_product (env : Env) (σ : registry) :
  (RepoList_err env = None →
   (∀ repo, repo ∈ repositories σ → TagList_err env repo = None) →
   ∃ imgs,
     res (fetchRegistryImages env σ) = Ok imgs
     ∧ ∀ img, img ∈ imgs ↔
         ∃ repo tag, repo ∈ repositories σ ∧ tag ∈ tags_of repo σ
                     ∧ img = "ctr.lesiw.dev/" +:+ repo +:+ ":" +:+ tag)
  ∧ (∀ e, RepoList_err env = Some e →
       res (fetchRegistryImages env σ)
       = Err (ErrorfW "could not get repository list: %w" [] e))
  ∧ (∀ repo e,
       RepoList_err env = None →
       repo ∈ repositories σ → TagList_err env repo = Some e →
       ∃ repo' e',
         res (fetchRegistryImages env σ)
         = Err (ErrorfW "could not get tags for repository %q: %w"
                        [repo'] e')).
Proof.
  split; [|split].
  - intros Hrepos Htags.
    destruct (fetch_loop_ok env (repositories σ) ∅ σ Htags) as [imgs Himgs].
    assert (res (fetchRegistryImages env σ) = Ok imgs) as Hres.
    { rewrite fetchRegistryImages_eq, Hrepos.
      by destruct (for_fold _ _ (tags_into env) σ) as [[r σ'] t]. }
    exists imgs. split; [done |]. by apply (fetchRegistryImages_found env).
  - intros e Hrepos. by rewrite fetchRegistryImages_eq, Hrepos.
  - intros repo e Hrepos Hin Htags.
    destruct (fetch_loop_err env (repositories σ) ∅ σ repo e Hin Htags)
      as (repo' & e' & _ & _ & Hres).
    exists repo', e'. rewrite fetchRegistryImages_eq, Hrepos.
    by destruct (for_fold _ _ (tags_into env) σ) as [[r σ'] t].
Qed.

Lemma fetchRegistryImages_cross_product_witness :
  (∃ imgs,
     res (fetchRegistryImages sample.quiet sample.stored) = Ok imgs
     ∧ ∀ img, img ∈ imgs ↔
         ∃ repo tag, repo ∈ repositories sample.stored
                     ∧ tag ∈ tags_of repo sample.stored
                     ∧ img = "ctr.lesiw.dev/" +:+ repo +:+ ":" +:+ tag)
  ∧ res (fetchRegistryImages sample.no_catalog sample.stored)
    = Err (ErrorfW "could not get repository list: %w" []
                   (ApiError "connection refused"))
  ∧ ∃ repo' e',
      res (fetchRegistryImages sample.no_tags sample.stored)
      = Err (ErrorfW "could not get tags for repository %q: %w" [repo'] e').
Proof.
  split; [|split].
  - apply (proj1 (fetchRegistryImages_cross_product
                    sample.quiet sample.stored));
      [reflexivity | intros repo _; reflexivity].
  - apply (proj1 (proj2 (fetchRegistryImages_cross_product
                           sample.no_catalog sample.stored))).
    reflexivity.
  - apply (proj2 (proj2 (fetchRegistryImages_cross_product
                           sample.no_tags sample.stored))
             "b" (ApiError "not found"));
      [reflexivity | by_evaluation | reflexivity].
Defined.

(** C7. [fetchPodImages] lists the pods of every namespace (the request
    names no namespace) and returns the set of the images declared by the
    containers of all of them; when the pods cannot be listed it returns
    the error and no set. *)
Theorem fetchPodImages_all_namespaces (env : Env) (σ : registry) :
  (PodsList_err env = None →
   ∃ imgs,
     fetchPodImages env σ = (Ok imgs, σ, [EvPodsList ""])
     ∧ ∀ img, img ∈ imgs ↔
         ∃ pod ctr, pod ∈ cluster env ∧ ctr ∈ Containers pod
                    ∧ Image ctr = img)
  ∧ (∀ e, PodsList_err env = Some e →
       fetchPodImages env σ = (Err e, σ, [EvPodsList ""])).
Proof.
  split.
  - intros Hpods. rewrite fetchPodImages_eq, Hpods.
    eexists. split; [done |]. intros img. rewrite elem_of_pod_images.
    split; [intros [[]%not_elem_of_empty|?] | intros ?]; auto.
  - intros e Hpods. by rewrite fetchPodImages_eq, Hpods.
Qed.

Lemma fetchPodImages_all_namespaces_witness :
  (∃ imgs,
     fetchPodImages sample.quiet sample.stored
     = (Ok imgs, sample.stored, [EvPodsList ""])
     ∧ ∀ img, img ∈ imgs ↔
         ∃ pod ctr, pod ∈ cluster sample.quiet ∧ ctr ∈ Containers pod
                    ∧ Image ctr = img)
  ∧ fetchPodImages sample.no_pods sample.stored
    = (Err (ApiError "forbidden"), sample.stored, [EvPodsList ""]).
Proof.
  split.
  - apply (proj1 (fetchPodImages_all_namespaces sample.quiet sample.stored)).
    reflexivity.
  - apply (proj2 (fetchPodImages_all_namespaces sample.no_pods
                    sample.stored)).
    reflexivity.
Defined.

Lemma Cut_canonical (repo tag : string) :
  Cut ("ctr.lesiw.dev/" +:+ repo +:+ ":" +:+ tag) "/"
  = ("ctr.lesiw.dev", repo +:+ ":" +:+ tag, true).
Proof.
  change ("ctr.lesiw.dev/" +:+ repo +:+ ":" +:+ tag)
    with ("ctr.lesiw.dev" +:+ "/" +:+ repo +:+ ":" +:+ tag).
  apply Cut_host. by_evaluation.
Qed.

Lemma Cut_repotag (repo tag : string) :
  ∃ repo' tag', Cut (repo +:+ ":" +:+ tag) ":" = (repo', tag', true).
Proof.
  destruct (Cut (repo +:+ ":" +:+ tag) ":") as [[repo' tag'] [|]] eqn:Hcut;
    [eauto |].
  apply Cut_not_found in Hcut. exfalso. apply Hcut.
  rewrite chars_app. apply elem_of_app. right. by left.
Qed.

(** C10. An image string produced by [fetchRegistryImages] never reaches
    the two parse errors of [deleteImage]: it has a ['/'], what follows
    its first ['/'] has a [':'], and [deleteImage] gets as far as the
    request to the registry. *)
Theorem fetched_images_parse (env : Env) (σ : registry) (imgs : stringset)
    (img : string) :
  res (fetchRegistryImages env σ) = Ok imgs → img ∈ imgs →
  (∃ repotag repo tag,
     Cut img "/" = ("ctr.lesiw.dev", repotag, true)
     ∧ Cut repotag ":" = (repo, tag, true))
  ∧ ∀ σ', ∃ r, requests (trace (deleteImage env img σ')) = [r].
Proof.
  intros Hres Hin.
  apply (fetchRegistryImages_found env σ imgs Hres) in Hin
    as (repo & tag & _ & _ & ->).
  destruct (Cut_repotag repo tag) as (repo' & tag' & Hcut).
  split.
  - exists (repo +:+ ":" +:+ tag), repo', tag'.
    split; [apply Cut_canonical | done].
  - intros σ'. eexists.
    rewrite (deleteImage_parsed env _ _ _ _ _ σ' (Cut_canonical repo tag) Hcut).
    by destruct (TagDelete_err env σ' repo' tag').
Qed.

Lemma fetched_images_parse_witness :
  (∃ repotag repo tag,
     Cut "ctr.lesiw.dev/b:v2" "/" = ("ctr.lesiw.dev", repotag, true)
     ∧ Cut repotag ":" = (repo, tag, true))
  ∧ ∀ σ', ∃ r,
      requests (trace (deleteImage sample.quiet "ctr.lesiw.dev/b:v2" σ'))
      = [r].
Proof.
  apply (fetched_images_parse sample.quiet sample.stored
           (list_to_set ["ctr.lesiw.dev/a:v1"; "ctr.lesiw.dev/b:v2";
                         "ctr.lesiw.dev/c:v3"; "ctr.lesiw.dev/d:v4"])).
  - vm_compute. reflexivity.
  - by_evaluation.
Defined.

End fetch_claims.

(** ** [gcRegistry] *)

Section gcRegistry.

Context (env : Env).

Lemma gcRegistry_eq (σ : registry) :
  gcRegistry env σ
  = match NewSPDYExecutor_err env with
    | Some e =>
        (Err (ErrorfW "could not create spdy executor: %w" [] e), σ, [])
    | None =>
    match NewWebSocketExecutor_err env with
    | Some e =>
        (Err (ErrorfW "failed to create websocket executor: %w" [] e), σ, [])
    | None =>
        let ws := EvStream WebSocket gc_request in
        let spdy := EvStream SPDY gc_request in
        let '(buf, err, t) :=
          if ws_falls_back env
          then ((ws_stream env).1 +:+ (spdy_stream env).1,
                (spdy_stream env).2, [ws; spdy])
          else ((ws_stream env).1, (ws_stream env).2, [ws]) in
        match err with
        | Some e =>
            (Err (if bool_decide (0 < String.length buf)%nat
                  then ErrorfW
                         "could not exec registry garbage-collect: %w\n---\n%s"
                         [buf] e
                  else ErrorfW
                         "could not exec registry garbage-collect: %w" [] e),
             σ, t)
        | None => (Ok (), σ, t ++ [EvInfo "gc completed" []])
        end
    end
    end.
Proof.
  unfold gcRegistry, NewSPDYExecutor, NewWebSocketExecutor,
    NewFallbackExecutor, stream, ws_falls_back,
    httpstream_IsUpgradeFailure, httpstream_IsHTTPSProxyError.
  unfold_M.
  destruct (NewSPDYExecutor_err env); [done |].
  destruct (NewWebSocketExecutor_err env); [done |]. simpl.
  rewrite append_nil.
  destruct (ws_stream env) as [out [e|]]; simpl.
  - destruct (IsUpgradeFailure env e || IsHTTPSProxyError env e); simpl.
    + destruct (spdy_stream env) as [out' [e'|]]; simpl; [|done].
      by case_bool_decide.
    + by case_bool_decide.
  - done.
Qed.

Lemma gcRegistry_frame (σ : registry) :
  final (gcRegistry env σ) = σ
  ∧ attempts (trace (gcRegistry env σ)) = []
  ∧ requests (trace (gcRegistry env σ)) = [].
Proof.
  rewrite gcRegistry_eq.
  destruct (NewSPDYExecutor_err env); [done |].
  destruct (NewWebSocketExecutor_err env); [done |].
  destruct (ws_falls_back env); simpl.
  - by destruct (spdy_stream env).2.
  - by destruct (ws_stream env).2.
Qed.

End gcRegistry.

(** C4. [gcRegistry] streams through the WebSocket executor first.  It
    streams through the SPDY executor next exactly when the WebSocket
    attempt failed with an error that [IsUpgradeFailure] or
    [IsHTTPSProxyError] accepts; a WebSocket failure of any other kind is
    returned at once, wrapped, and SPDY is not tried. *)
Theorem gcRegistry_fallback (env : Env) (σ : registry) :
  NewSPDYExecutor_err env = None → NewWebSocketExecutor_err env = None →
  (∃ rest, streams (trace (gcRegistry env σ)) = WebSocket :: rest)
  ∧ (SPDY ∈ streams (trace (gcRegistry env σ)) ↔
       ∃ e, (ws_stream env).2 = Some e
            ∧ (IsUpgradeFailure env e = true ∨ IsHTTPSProxyError env e = true))
  ∧ (∀ e, (ws_stream env).2 = Some e →
          IsUpgradeFailure env e = false → IsHTTPSProxyError env e = false →
          streams (trace (gcRegistry env σ)) = [WebSocket]
          ∧ ∃ format operands,
              res (gcRegistry env σ) = Err (ErrorfW format operands e)).
Proof.
  intros Hspdy Hws. rewrite gcRegistry_eq, Hspdy, Hws. unfold ws_falls_back.
  destruct (ws_stream env) as [out [e|]]; simpl.
  - destruct (IsUpgradeFailure env e) eqn:Hup;
      [|destruct (IsHTTPSProxyError env e) eqn:Hproxy]; simpl.
    + destruct (spdy_stream env) as [out' [e'|]]; simpl;
        (split; [by eexists |]); (split; [|by intros ? [= <-]; congruence]);
        (split; [by eauto |]); intros _; by right; left.
    + destruct (spdy_stream env) as [out' [e'|]]; simpl;
        (split; [by eexists |]); (split; [|by intros ? [= <-]; congruence]);
        (split; [by eauto |]); intros _; by right; left.
    + split; [by eexists |]. split.
      * split.
        -- intros [[=]|[]%elem_of_nil]%elem_of_cons.
        -- intros (e' & [= <-] & [?|?]); congruence.
      * intros e' [= <-] _ _. split; [done |].
        case_bool_decide; by eexists _, _.
  - split; [by eexists |]. split; [|done]. split.
    + intros [[=]|[]%elem_of_nil]%elem_of_cons.
    + by intros (e' & [=] & _).
Qed.

Lemma gcRegistry_fallback_witness :
  ((∃ rest,
      streams (trace (gcRegistry sample.ws_refused sample.stored))
      = WebSocket :: rest)
   ∧ (SPDY ∈ streams (trace (gcRegistry sample.ws_refused sample.stored)) ↔
        ∃ e, (ws_stream sample.ws_refused).2 = Some e
             ∧ (IsUpgradeFailure sample.ws_refused e = true
                ∨ IsHTTPSProxyError sample.ws_refused e = true)))
  ∧ streams (trace (gcRegistry sample.ws_unauthorized sample.stored))
    = [WebSocket]
  ∧ ∃ format operands,
      res (gcRegistry sample.ws_unauthorized sample.stored)
      = Err (ErrorfW format operands (ApiError "unauthorized")).
Proof.
  split.
  - destruct (gcRegistry_fallback sample.ws_refused sample.stored
                eq_refl eq_refl) as (Hfirst & Hspdy & _).
    exact (conj Hfirst Hspdy).
  - destruct (gcRegistry_fallback sample.ws_unauthorized sample.stored
                eq_refl eq_refl) as (_ & _ & Hother).
    exact (Hother (ApiError "unauthorized") eq_refl eq_refl eq_refl).
Defined.

(** ** The deletion loop of [run] *)

Section delete_loop.

Import strings.
Context (env : Env).

(** One turn of the loop: the tag is deleted, or the loop is left with the
    error, the registry as it was. *)
Lemma delete_step (img : string) (σ : registry) :
  (∃ repo tag r,
     parsed img = Some (repo, tag)
     ∧ wrapped (deleteImage env img)
               (ErrorfW "could not delete image %q: %w" [img]) σ
       = (Ok (), σ ∖ {[ (repo, tag) ]},
          [EvDeleteImage img; EvTagDelete r;
           EvInfo "deleted image" [("image", img)]]))
  ∨ (∃ e t,
       wrapped (deleteImage env img)
               (ErrorfW "could not delete image %q: %w" [img]) σ
       = (Err (ErrorfW "could not delete image %q: %w" [img] e), σ, t)
       ∧ attempts t = [img] ∧ streams t = []).
Proof.
  destruct (Cut img "/") as [[host repotag] [|]] eqn:Hcut1.
  - destruct (Cut repotag ":") as [[repo tag] [|]] eqn:Hcut2.
    + pose proof (deleteImage_parsed env img host repotag repo tag σ
                    Hcut1 Hcut2) as Heq. simpl in Heq.
      unfold wrapped. rewrite Heq.
      destruct (TagDelete_err env σ repo tag) as [e|].
      * right. by eexists _, _.
      * left. exists repo, tag. eexists. split; [|done].
        by eapply parsed_cuts.
    + right. unfold wrapped.
      rewrite (deleteImage_no_tag env img host repotag repo tag σ Hcut1 Hcut2).
      by eexists _, _.
  - right. unfold wrapped.
    rewrite (deleteImage_no_registry env img host repotag σ Hcut1).
    by eexists _, _.
Qed.

Lemma deleted_nil (σ : registry) : deleted [] σ σ.
Proof.
  split; [by intros ? []%elem_of_nil |]. intros repo tag. split.
  - intros ?. split; [done |]. by intros ? []%elem_of_nil.
  - by intros [? _].
Qed.

Lemma deleted_cons (img repo tag : string) (imgs : list string)
    (σ σ' : registry) :
  parsed img = Some (repo, tag) → deleted imgs (σ ∖ {[ (repo, tag) ]}) σ' →
  deleted (img :: imgs) σ σ'.
Proof.
  intros Himg [Hparse Hreg]. split.
  - intros img' [->|?]%elem_of_cons; [by rewrite Himg | auto].
  - intros repo' tag'. rewrite Hreg, elem_of_difference, elem_of_singleton.
    split.
    + intros [[Hin Hne] Hrest]. split; [done |].
      intros img' [->|?]%elem_of_cons; [|auto].
      rewrite Himg. congruence.
    + intros [Hin Hrest]. split; [split; [done |] |].
      * intros [= -> ->]. apply (Hrest img); [by left | done].
      * intros img' ?. apply Hrest. by right.
Qed.

(** The loop either deletes all its images, or stops at the first one
    whose deletion fails: the images before it are deleted, those after it
    are not tried, and the error names it. *)
Lemma delete_loop_cases (imgs : list string) (σ : registry) :
  (∃ σ' t,
     delete_loop env imgs σ = (Ok (), σ', t)
     ∧ attempts t = imgs ∧ streams t = [] ∧ deleted imgs σ σ')
  ∨ (∃ pre img post e σ' t,
       imgs = pre ++ img :: post
       ∧ delete_loop env imgs σ
         = (Err (ErrorfW "could not delete image %q: %w" [img] e), σ', t)
       ∧ attempts t = pre ++ [img] ∧ streams t = [] ∧ deleted pre σ σ').
Proof.
  revert σ. induction imgs as [|img imgs IH]; intros σ.
  - left. exists σ, []. split; [done |]. split; [done |].
    split; [done | apply deleted_nil].
  - unfold delete_loop. cbn [for_each]. unfold mbind, M_mbind, M_bind.
    destruct (delete_step img σ)
      as [(repo & tag & r & Himg & ->)|(e & t & -> & Hatt & Hstr)].
    + fold (delete_loop env imgs).
      destruct (IH (σ ∖ {[ (repo, tag) ]}))
        as [(σ' & t & -> & Hatt & Hstr & Hdel)
           |(pre & img' & post & e & σ' & t & -> & -> & Hatt & Hstr & Hdel)].
      * left. eexists _, _. split; [done |]. simpl.
        split; [by rewrite Hatt |]. split; [done |].
        by eapply deleted_cons.
      * right. exists (img :: pre), img', post. eexists _, _, _.
        split; [done |]. split; [done |]. simpl.
        split; [by rewrite Hatt |]. split; [done |].
        by eapply deleted_cons.
    + right. exists [], img, imgs. eexists _, _, _.
      split; [done |]. split; [done |]. split; [done |].
      split; [done | apply deleted_nil].
Qed.

End delete_loop.

(** ** [run] *)

Section run.

Import strings.
Context (env : Env).

Lemma elem_of_unreferenced (order : list string) (regimgs podimgs : stringset)
    (img : string) :
  img ∈ unreferenced order regimgs podimgs
  ↔ img ∈ regimgs ∧ ¬ (img ∈ podimgs ∧ img ∈ order).
Proof.
  unfold unreferenced. revert regimgs.
  induction order as [|key order IH]; intros regimgs; simpl.
  - split; [|by intros [? _]]. intros ?. split; [done |].
    by intros [_ []%elem_of_nil].
  - rewrite IH, elem_of_cons. clear IH.
    destruct (decide (key ∈ regimgs)) as [Hkey|Hkey];
      [destruct (decide (key ∈ podimgs)) as [Hpod|Hpod] |].
    + rewrite elem_of_difference, elem_of_singleton. split.
      * intros [[? ?] ?]. split; [done |]. intros [? [?|?]]; auto.
      * intros [? Hno]. split; [split; [done |] |].
        -- intros ->. apply Hno. auto.
        -- intros [? ?]. apply Hno. auto.
    + split; intros [? Hno]; (split; [done |]).
      * intros [? [->|?]]; auto.
      * intros [? ?]. apply Hno. auto.
    + split; intros [? Hno]; (split; [done |]).
      * intros [? [->|?]]; auto.
      * intros [? ?]. apply Hno. auto.
Qed.

Lemma elem_of_range (range : stringset → list string) (m : stringset)
    (img : string) :
  range_ok range → img ∈ range m ↔ img ∈ m.
Proof. intros Hok. by rewrite (Hok m), elem_of_elements. Qed.

Lemma NoDup_range (range : stringset → list string) (m : stringset) :
  range_ok range → NoDup (range m).
Proof. intros Hok. rewrite (Hok m). apply NoDup_elements. Qed.

(** The first loop leaves the images no pod refers to. *)
Lemma unreferenced_difference (regimgs podimgs : stringset) :
  range_ok (range_filter env) →
  unreferenced (range_filter env regimgs) regimgs podimgs
  = regimgs ∖ podimgs.
Proof.
  intros Hok. apply set_eq. intros img.
  rewrite elem_of_unreferenced, elem_of_difference, elem_of_range by done.
  split; intros [? Hno]; (split; [done |]); [auto | by intros [? _]].
Qed.

Lemma run_eq (σ : registry) :
  run env σ
  = match InClusterConfig_err env with
    | Some e =>
        (Err (ErrorfW "could not get cluster config: %w" [] e), σ, [])
    | None =>
    match NewForConfig_err env with
    | Some e =>
        (Err (ErrorfW "could not make kubernetes client: %w" [] e), σ, [])
    | None =>
    let '(regimgs, σ1, t1) := fetchRegistryImages env σ in
    match regimgs with
    | Err e =>
        (Err (ErrorfW "could not fetch registry images: %w" [] e), σ1, t1)
    | Ok regimgs =>
    let '(podimgs, σ2, t2) := fetchPodImages env σ1 in
    match podimgs with
    | Err e =>
        (Err (ErrorfW "could not fetch pod images: %w" [] e), σ2, t1 ++ t2)
    | Ok podimgs =>
    let regimgs :=
      unreferenced (range_filter env regimgs) regimgs podimgs in
    let '(deletion, σ3, t3) :=
      delete_loop env (range_delete env regimgs) σ2 in
    match deletion with
    | Err e => (Err e, σ3, t1 ++ t2 ++ t3)
    | Ok _ =>
    let '(gc, σ4, t4) := gcRegistry env σ3 in
    match gc with
    | Err e =>
        (Err (ErrorfW "could not trigger registry gc: %w" [] e),
         σ4, t1 ++ t2 ++ t3 ++ t4)
    | Ok _ => (Ok (), σ4, t1 ++ t2 ++ t3 ++ t4)
    end end end end end end.
Proof.
  unfold run, delete_loop. unfold_M.
  destruct (InClusterConfig_err env); [done |].
  destruct (NewForConfig_err env); [done |]. simpl.
  destruct (fetchRegistryImages env σ) as [[[regimgs|e] σ1] t1]; [|done].
  destruct (fetchPodImages env σ1) as [[[podimgs|e] σ2] t2]; [|done].
  destruct (for_each _ _ σ2) as [[[[]|e] σ3] t3]; [|done].
  destruct (gcRegistry env σ3) as [[[[]|e] σ4] t4]; simpl;
    by rewrite ?app_nil_r.
Qed.

End run.

Section outcome.

Context (env : Env).

Lemma attempts_app (t1 t2 : list event) :
  attempts (t1 ++ t2) = attempts t1 ++ attempts t2.
Proof. apply omap_app. Qed.

Lemma requests_app (t1 t2 : list event) :
  requests (t1 ++ t2) = requests t1 ++ requests t2.
Proof. apply omap_app. Qed.

Lemma streams_app (t1 t2 : list event) :
  streams (t1 ++ t2) = streams t1 ++ streams t2.
Proof. apply omap_app. Qed.

Lemma attempts_cons (ev : event) (t : list event) :
  attempts (ev :: t) = attempts [ev] ++ attempts t.
Proof. apply (omap_app _ [ev] t). Qed.

Lemma streams_cons (ev : event) (t : list event) :
  streams (ev :: t) = streams [ev] ++ streams t.
Proof. apply (omap_app _ [ev] t). Qed.

Lemma requests_cons (ev : event) (t : list event) :
  requests (ev :: t) = requests [ev] ++ requests t.
Proof. apply (omap_app _ [ev] t). Qed.

Lemma run_outcome (σ : registry) :
  range_ok (range_filter env) → outcome env σ.
Proof.
  intros Hfilter. pose proof (run_eq env σ) as Hrun.
  destruct (InClusterConfig_err env) as [e|].
  { eapply NotFetched; rewrite ?Hrun; done. }
  destruct (NewForConfig_err env) as [e|].
  { eapply NotFetched; rewrite ?Hrun; done. }
  destruct (fetchRegistryImages_frame env σ) as (Hσ1 & Hatt1 & Hreq1 & Hstr1).
  destruct (fetchRegistryImages env σ) as [[[regimgs|e] σ1] t1] eqn:Hreg;
    unfold final, trace in Hσ1, Hatt1, Hreq1, Hstr1; simpl in *; subst σ1.
  2: { eapply NotFetched; rewrite ?Hrun; done. }
  rewrite fetchPodImages_eq in Hrun.
  pose proof (fetchPodImages_eq env σ) as Hpod.
  destruct (PodsList_err env) as [e|].
  { eapply NotFetched; rewrite ?Hrun; try done; unfold trace; simpl.
    - by rewrite attempts_app, Hatt1.
    - by rewrite requests_app, Hreq1.
    - by rewrite streams_app, Hstr1. }
  rewrite unreferenced_difference in Hrun by done.
  set (podimgs := foldl _ ∅ (cluster env)) in *.
  destruct (delete_loop_cases env (range_delete env (regimgs ∖ podimgs)) σ)
    as [(σ' & t & Hloop & Hatt & Hstr & Hdel)
       |(pre & img & post & e & σ' & t & Hl & Hloop & Hatt & Hstr & Hdel)];
    rewrite Hloop in Hrun.
  - destruct (gcRegistry_frame env σ') as (Hσ4 & Hatt4 & Hreq4).
    destruct (gcRegistry env σ') as [[gc σ4] t4];
      unfold final, trace in Hσ4, Hatt4, Hreq4; simpl in *; subst σ4.
    eapply (AllDeleted _ _ regimgs podimgs).
    + by rewrite Hreg.
    + by rewrite Hpod.
    + rewrite Hrun. destruct gc as [[]|e]; [by left | right; by exists e].
    + assert (trace (run env σ) = t1 ++ EvPodsList "" :: t ++ t4) as ->
        by (rewrite Hrun; by destruct gc).
      by rewrite attempts_app, attempts_cons, attempts_app,
        Hatt1, Hatt, Hatt4, app_nil_r.
    + rewrite Hrun. by destruct gc as [[]|e].
  - eapply (DeletionFailed _ _ regimgs podimgs pre img post e).
    + by rewrite Hreg.
    + by rewrite Hpod.
    + done.
    + by rewrite Hrun.
    + rewrite Hrun. unfold trace; simpl.
      by rewrite attempts_app, attempts_cons, Hatt1, Hatt.
    + rewrite Hrun. unfold trace; simpl.
      by rewrite streams_app, streams_cons, Hstr1, Hstr.
    + by rewrite Hrun.
Qed.

End outcome.

(** ** The cycle *)

Section cycle.

Import strings.
Context (env : Env).

Lemma listed (σ : registry) (repo tag : string) :
  repo ∈ repositories σ ∧ tag ∈ tags_of repo σ ↔ (repo, tag) ∈ σ.
Proof.
  unfold repositories, tags_of. rewrite !elem_of_elements, !elem_of_map.
  split.
  - intros [_ ([repo' tag'] & -> & [Heq Hin]%elem_of_filter)].
    simpl in Heq. by subst repo'.
  - intros Hin. split; [by exists (repo, tag) |].
    exists (repo, tag). split; [done |]. by apply elem_of_filter.
Qed.

(** The inventory holds the images of the tags in the registry. *)
Lemma elem_of_inventory (σ : registry) (regimgs : stringset) (img : string) :
  res (fetchRegistryImages env σ) = Ok regimgs →
  img ∈ regimgs ↔
  ∃ repo tag, (repo, tag) ∈ σ
              ∧ img = "ctr.lesiw.dev/" +:+ repo +:+ ":" +:+ tag.
Proof.
  intros Hres. rewrite (fetchRegistryImages_found env σ regimgs Hres).
  split; intros (repo & tag & H); exists repo, tag.
  - destruct H as (? & ? & ->). split; [by apply listed | done].
  - destruct H as [[? ?]%listed ->]. done.
Qed.

Lemma podimgs_fixed (σ σ' : registry) :
  res (fetchPodImages env σ') = res (fetchPodImages env σ).
Proof. rewrite !fetchPodImages_eq. by destruct (PodsList_err env). Qed.

Lemma elem_of_podimgs (σ : registry) (podimgs : stringset) (img : string) :
  res (fetchPodImages env σ) = Ok podimgs →
  img ∈ podimgs ↔
  ∃ pod ctr, pod ∈ cluster env ∧ ctr ∈ Containers pod ∧ Image ctr = img.
Proof.
  rewrite fetchPodImages_eq. destruct (PodsList_err env); [done |].
  intros [= <-]. rewrite elem_of_pod_images.
  split; [intros [[]%not_elem_of_empty|?] | intros ?]; auto.
Qed.

Lemma parsed_canonical (repo tag : string) :
  ":"%char ∉ chars repo →
  parsed ("ctr.lesiw.dev/" +:+ repo +:+ ":" +:+ tag) = Some (repo, tag).
Proof.
  intros Hrepo. eapply parsed_cuts; [apply Cut_canonical | by apply Cut_repo].
Qed.

(** Whatever an image of the inventory is cut into, composing it again
    gives the image. *)
Lemma parsed_canonical_inv (repo tag repo' tag' : string) :
  parsed ("ctr.lesiw.dev/" +:+ repo +:+ ":" +:+ tag) = Some (repo', tag') →
  "ctr.lesiw.dev/" +:+ repo +:+ ":" +:+ tag
  = "ctr.lesiw.dev/" +:+ repo' +:+ ":" +:+ tag'.
Proof.
  unfold parsed. rewrite Cut_canonical.
  destruct (Cut (repo +:+ ":" +:+ tag) ":") as [[repo'' tag''] [|]] eqn:Hcut;
    [|done].
  intros [= <- <-]. apply Cut_found in Hcut as [Heq _]. by rewrite Heq.
Qed.

End cycle.

(** ** The claims on [run] *)

Section run_claims.

Import strings.

Lemma range_ok_elements : range_ok elements.
Proof. by intros m. Qed.

(** C1. For every registry inventory [R] and workload inventory [W], the
    set left by the first loop of [run] holds exactly the members of [R]
    that are not in [W], compared as strings; the images [deleteImage] is
    then called with are taken from that set, in the order of the second
    loop, and are all of it when the cycle succeeds. *)
Theorem run_deletes_unreferenced (env : Env) (R W : stringset) :
  range_ok (range_filter env) →
  let U := unreferenced (range_filter env R) R W in
  (∀ img, img ∈ U ↔ img ∈ R ∧ img ∉ W)
  ∧ ∀ σ,
      range_ok (range_delete env) →
      res (fetchRegistryImages env σ) = Ok R →
      res (fetchPodImages env σ) = Ok W →
      attempts (trace (run env σ)) `prefix_of` range_delete env U
      ∧ (res (run env σ) = Ok () →
         attempts (trace (run env σ)) ≡ₚ elements U).
Proof.
  intros Hfilter U. subst U. rewrite unreferenced_difference by done.
  split; [intros img; apply elem_of_difference |].
  intros σ Hdelete HR HW.
  destruct (run_outcome env σ Hfilter)
    as [e Hres _ _ Hatt _ _
       |R' W' pre img post e HR' HW' Hl Hres Hatt _ _
       |R' W' HR' HW' Hres Hatt _].
  - rewrite Hatt, Hres. split; [apply prefix_nil | done].
  - rewrite HR in HR'. rewrite HW in HW'.
    injection HR' as <-. injection HW' as <-.
    rewrite Hatt, Hres, Hl. split; [|done].
    exists post. by rewrite <- app_assoc.
  - rewrite HR in HR'. rewrite HW in HW'.
    injection HR' as <-. injection HW' as <-.
    rewrite Hatt. split; [done |]. intros _. apply Hdelete.
Qed.

Lemma run_deletes_unreferenced_witness :
  let R : stringset :=
    list_to_set ["ctr.lesiw.dev/a:v1"; "ctr.lesiw.dev/b:v2";
                 "ctr.lesiw.dev/c:v3"; "ctr.lesiw.dev/d:v4"] in
  let W : stringset :=
    list_to_set ["ctr.lesiw.dev/a:v1"; "registry.k8s.io/pause:3.10"] in
  let U := unreferenced (range_filter sample.quiet R) R W in
  (∀ img, img ∈ U ↔ img ∈ R ∧ img ∉ W)
  ∧ attempts (trace (run sample.quiet sample.stored))
    `prefix_of` range_delete sample.quiet U
  ∧ attempts (trace (run sample.quiet sample.stored)) ≡ₚ elements U.
Proof.
  intros R W U.
  destruct (run_deletes_unreferenced sample.quiet R W range_ok_elements)
    as [Hmembers Hrun].
  split; [exact Hmembers |].
  destruct (Hrun sample.stored range_ok_elements) as [Hprefix Hall];
    [vm_compute; reflexivity | vm_compute; reflexivity |].
  split; [exact Hprefix |]. apply Hall. vm_compute. reflexivity.
Defined.

(** C2. Whatever the registry and the cluster hold, an image that a
    container of some pod declares, that is a member of the workload
    inventory, is never passed to [deleteImage]. *)
Theorem run_spares_referenced (env : Env) (σ : registry) (img : string) :
  range_ok (range_filter env) → range_ok (range_delete env) →
  img ∈ attempts (trace (run env σ)) →
  (∃ W, res (fetchPodImages env σ) = Ok W ∧ img ∉ W)
  ∧ ¬ ∃ pod ctr, pod ∈ cluster env ∧ ctr ∈ Containers pod
                 ∧ Image ctr = img.
Proof.
  intros Hfilter Hdelete Himg.
  assert (∃ R W, res (fetchPodImages env σ) = Ok W ∧ img ∈ R ∖ W)
    as (R & W & HW & [_ Hout]%elem_of_difference).
  { destruct (run_outcome env σ Hfilter)
      as [e _ _ _ Hatt _ _
         |R W pre img' post e _ HW Hl _ Hatt _ _
         |R W _ HW _ Hatt _];
      rewrite Hatt in Himg.
    - by apply elem_of_nil in Himg.
    - exists R, W. split; [done |].
      apply (elem_of_range (range_delete env)); [done |]. rewrite Hl.
      apply elem_of_app in Himg as [?|Heq%list_elem_of_singleton];
        apply elem_of_app; [by left | right; subst; by left].
    - exists R, W. split; [done |].
      by apply (elem_of_range (range_delete env)). }
  split; [by exists W |]. by rewrite <- (elem_of_podimgs env σ W img HW).
Qed.

Lemma run_spares_referenced_witness :
  "ctr.lesiw.dev/c:v3" ∈ attempts (trace (run sample.quiet sample.stored))
  ∧ (∃ W, res (fetchPodImages sample.quiet sample.stored) = Ok W
          ∧ "ctr.lesiw.dev/c:v3" ∉ W)
  ∧ ¬ ∃ pod ctr, pod ∈ cluster sample.quiet ∧ ctr ∈ Containers pod
                 ∧ Image ctr = "ctr.lesiw.dev/c:v3".
Proof.
  split; [by_evaluation |].
  apply (run_spares_referenced sample.quiet sample.stored
           "ctr.lesiw.dev/c:v3" range_ok_elements range_ok_elements).
  by_evaluation.
Defined.

(** The loop over [imgs1 ++ imgs2] is the loop over [imgs1] and then, when
    that ends without error, the loop over [imgs2]. *)
Lemma delete_loop_app (env : Env) (imgs1 imgs2 : list string) (σ : registry) :
  delete_loop env (imgs1 ++ imgs2) σ
  = match delete_loop env imgs1 σ with
    | (Ok _, σ', t) =>
        let '(r, σ'', t') := delete_loop env imgs2 σ' in (r, σ'', t ++ t')
    | (Err e, σ', t) => (Err e, σ', t)
    end.
Proof.
  revert σ. induction imgs1 as [|img imgs1 IH]; intros σ.
  - simpl. by destruct (delete_loop env imgs2 σ) as [[r σ'] t].
  - unfold delete_loop in *. rewrite <- app_comm_cons. cbn [for_each].
    unfold mbind, M_mbind, M_bind.
    destruct (wrapped (deleteImage env img) _ σ) as [[[[]|e] σ1] t1]; [|done].
    rewrite IH. destruct (for_each imgs1 _ σ1) as [[[[]|e] σ2] t2]; [|done].
    destruct (for_each imgs2 _ σ2) as [[r σ3] t3]. by rewrite app_assoc.
Qed.

(** C3. When the deletion of one image fails, the cycle ends at once with
    that error: with the images before it in the order of the loop deleted
    and [deleteImage] failing on it, [run] returns the error wrapped, the
    images after it are not passed to [deleteImage], the tags deleted before
    it stay deleted, the tags of the failed image and of the images after it
    are still in the registry, and no executor is streamed through.  With
    three images to delete and the second failing, the first is deleted, the
    other two stay and the garbage collector is not run. *)
Theorem run_aborts_on_failed_deletion (env : Env) (σ : registry)
    (R W : stringset) (pre : list string) (img : string) (post : list string)
    (e : error) :
  range_ok (range_filter env) → range_ok (range_delete env) →
  InClusterConfig_err env = None → NewForConfig_err env = None →
  res (fetchRegistryImages env σ) = Ok R →
  res (fetchPodImages env σ) = Ok W →
  range_delete env (R ∖ W) = pre ++ img :: post →
  res (delete_loop env pre σ) = Ok () →
  res (deleteImage env img (final (delete_loop env pre σ))) = Err e →
  res (run env σ) = Err (ErrorfW "could not delete image %q: %w" [img] e)
  ∧ attempts (trace (run env σ)) = pre ++ [img]
  ∧ (∀ img', img' ∈ post → img' ∉ attempts (trace (run env σ)))
  ∧ final (run env σ) = final (delete_loop env pre σ)
  ∧ (∀ img', img' ∈ pre →
       ∃ repo tag, parsed img' = Some (repo, tag)
                   ∧ (repo, tag) ∉ final (run env σ))
  ∧ (∀ repo tag,
       (repo, tag) ∈ σ →
       "ctr.lesiw.dev/" +:+ repo +:+ ":" +:+ tag ∈ img :: post →
       (repo, tag) ∈ final (run env σ))
  ∧ streams (trace (run env σ)) = [].
Proof.
  intros Hfilter Hdelete Hconfig Hclient HR HW Hl Hpre Himg.
  (* the loop over [pre], then the failing call *)
  destruct (delete_loop_cases env pre σ)
    as [(σ1 & t & Hloop & Hatt & Hstr & [Hparse Hreg])
       |(? & ? & ? & ? & ? & ? & _ & Hloop & _)];
    [|by rewrite Hloop in Hpre].
  rewrite Hloop in Himg. unfold final in Himg; simpl in Himg.
  assert (∃ t', delete_loop env (img :: post) σ1
                = (Err (ErrorfW "could not delete image %q: %w" [img] e),
                   σ1, t')
                ∧ attempts t' = [img] ∧ streams t' = [])
    as (t' & Hfail & Hatt' & Hstr').
  { unfold delete_loop. cbn [for_each]. unfold mbind, M_mbind, M_bind.
    destruct (delete_step env img σ1)
      as [(repo & tag & r & _ & Hstep)|(e' & t' & Hstep & ? & ?)].
    - unfold wrapped in Hstep.
      destruct (deleteImage env img σ1) as [[[[]|?] ?] ?]; done.
    - rewrite Hstep. exists t'. split; [|done]. unfold wrapped in Hstep.
      destruct (deleteImage env img σ1) as [[[[]|e''] ?] ?]; [done |].
      unfold res in Himg; simpl in Himg.
      injection Himg as ->. by injection Hstep as -> _ _. }
  (* the cycle *)
  assert (∀ img', img' ∈ R →
            ∃ repo tag, (repo, tag) ∈ σ
                        ∧ img' = "ctr.lesiw.dev/" +:+ repo +:+ ":" +:+ tag)
    as Hinventory by (intros img'; by apply (elem_of_inventory env σ R)).
  pose proof (run_eq env σ) as Hrun. rewrite Hconfig, Hclient in Hrun.
  destruct (fetchRegistryImages_frame env σ) as (Hσ1 & Hatt1 & _ & Hstr1).
  destruct (fetchRegistryImages env σ) as [[[R'|?] σ'] t1];
    unfold res, final, trace in HR, Hσ1, Hatt1, Hstr1; simpl in *; [|done].
  injection HR as ->. subst σ'.
  rewrite fetchPodImages_eq in HW, Hrun.
  destruct (PodsList_err env); [done |].
  unfold res in HW; simpl in HW. injection HW as HW. rewrite HW in Hrun.
  rewrite unreferenced_difference, Hl, delete_loop_app, Hloop, Hfail in Hrun
    by done.
  rewrite Hrun, Hloop. unfold res, final, trace; simpl.
  pose proof (NoDup_range (range_delete env) (R ∖ W) Hdelete) as Hnodup.
  rewrite Hl in Hnodup. apply NoDup_app in Hnodup as (_ & Hdisjoint & Hpost).
  assert (attempts (t1 ++ EvPodsList "" :: t ++ t') = pre ++ [img]) as Hattempts
    by (by rewrite attempts_app, attempts_cons, attempts_app,
          Hatt1, Hatt, Hatt').
  rewrite Hattempts. repeat split; try done.
  - intros img' Hin [Hin'|Heq%list_elem_of_singleton]%elem_of_app.
    + apply (Hdisjoint img' Hin'). by right.
    + subst img'. by apply NoDup_cons in Hpost as [? _].
  - intros img' Hin. destruct (Hparse img' Hin) as [[repo tag] Himg'].
    exists repo, tag. split; [done |]. rewrite Hreg.
    intros [_ Hno]. by apply (Hno img').
  - intros repo tag Hin Hrest. apply Hreg. split; [done |].
    intros img' Hin' Himg'.
    assert (img' ∈ R) as HinR.
    { assert (img' ∈ R ∖ W) as [? _]%elem_of_difference; [|done].
      apply (elem_of_range (range_delete env)); [done |].
      rewrite Hl. apply elem_of_app. by left. }
    apply Hinventory in HinR as (repo' & tag' & _ & ->).
    apply parsed_canonical_inv in Himg'. rewrite <- Himg' in Hrest.
    by apply (Hdisjoint _ Hin').
  - by rewrite streams_app, streams_cons, streams_app, Hstr1, Hstr, Hstr'.
Qed.

Lemma run_aborts_on_failed_deletion_witness :
  let R : stringset :=
    list_to_set ["ctr.lesiw.dev/a:v1"; "ctr.lesiw.dev/b:v2";
                 "ctr.lesiw.dev/c:v3"; "ctr.lesiw.dev/d:v4"] in
  let W : stringset :=
    list_to_set ["ctr.lesiw.dev/a:v1"; "registry.k8s.io/pause:3.10"] in
  let pre := ["ctr.lesiw.dev/c:v3"] in
  let img := "ctr.lesiw.dev/b:v2" in
  let post := ["ctr.lesiw.dev/d:v4"] in
  let e := ErrorfW "could not delete %q: %w" [img] (ApiError "denied") in
  range_delete sample.stuck (R ∖ W) = pre ++ img :: post
  ∧ elements (final (run sample.stuck sample.stored))
    ≡ₚ [("a", "v1"); ("b", "v2"); ("d", "v4")]
  ∧ res (run sample.stuck sample.stored)
    = Err (ErrorfW "could not delete image %q: %w" [img] e)
  ∧ attempts (trace (run sample.stuck sample.stored)) = pre ++ [img]
  ∧ (∀ img', img' ∈ post →
       img' ∉ attempts (trace (run sample.stuck sample.stored)))
  ∧ final (run sample.stuck sample.stored)
    = final (delete_loop sample.stuck pre sample.stored)
  ∧ (∀ img', img' ∈ pre →
       ∃ repo tag,
         parsed img' = Some (repo, tag)
         ∧ (repo, tag) ∉ final (run sample.stuck sample.stored))
  ∧ (∀ repo tag,
       (repo, tag) ∈ sample.stored →
       "ctr.lesiw.dev/" +:+ repo +:+ ":" +:+ tag ∈ img :: post →
       (repo, tag) ∈ final (run sample.stuck sample.stored))
  ∧ streams (trace (run sample.stuck sample.stored)) = [].
Proof.
  intros R W pre img post e.
  split; [vm_compute; reflexivity |].
  split; [vm_compute; reflexivity |].
  apply (run_aborts_on_failed_deletion sample.stuck sample.stored R W
           pre img post e range_ok_elements range_ok_elements
           eq_refl eq_refl);
    vm_compute; reflexivity.
Defined.


(** C8. Running [run] twice, with nothing changed in between, deletes
    nothing the second time.  The registry is the set of its tags, from
    which a successful [TagDelete] removes one; its images decompose, that
    is, each is cut by [deleteImage] into the repository and the tag it was
    composed from.  After a successful first run the second run calls
    [deleteImage] with no image and leaves the registry as it is, and the
    set its first loop leaves is empty. *)
Theorem run_idempotent (env : Env) (σ σ' : registry) (t : list event) :
  range_ok (range_filter env) → range_ok (range_delete env) →
  (∀ repo tag,
     (repo, tag) ∈ σ →
     parsed ("ctr.lesiw.dev/" +:+ repo +:+ ":" +:+ tag) = Some (repo, tag)) →
  run env σ = (Ok (), σ', t) →
  attempts (trace (run env σ')) = []
  ∧ final (run env σ') = σ'
  ∧ ∀ R W,
      res (fetchRegistryImages env σ') = Ok R →
      res (fetchPodImages env σ') = Ok W →
      unreferenced (range_filter env R) R W = ∅.
Proof.
  intros Hfilter Hdelete Hwf Hrun.
  assert (∀ R W,
            res (fetchRegistryImages env σ') = Ok R →
            res (fetchPodImages env σ') = Ok W → R ∖ W = ∅) as Hempty.
  { intros R' W' HR' HW'. apply set_eq. intros img.
    rewrite elem_of_difference, (elem_of_inventory env σ' R' img HR').
    split; [|by intros []%not_elem_of_empty].
    intros [(repo & tag & Hin & ->) Hout]. exfalso.
    destruct (run_outcome env σ Hfilter)
      as [e Hres _ _ _ _ _
         |R W pre img post e _ _ _ Hres _ _ _
         |R W HR HW _ _ [_ Hreg]];
      rewrite Hrun in *; try done.
    unfold final in Hreg; simpl in Hreg.
    apply Hreg in Hin as [Hin Hno].
    rewrite (podimgs_fixed env σ σ'), HW in HW'. injection HW' as <-.
    apply (Hno ("ctr.lesiw.dev/" +:+ repo +:+ ":" +:+ tag)).
    - apply (elem_of_range (range_delete env)); [done |].
      apply elem_of_difference. split; [|done].
      apply (elem_of_inventory env σ R _ HR). by exists repo, tag.
    - by apply Hwf. }
  split; [|split].
  - destruct (run_outcome env σ' Hfilter)
      as [e _ _ _ Hatt _ _
         |R W pre img post e HR HW Hl _ _ _ _
         |R W HR HW _ Hatt _].
    + done.
    + pose proof (Hdelete (R ∖ W)) as Hperm.
      rewrite Hl, (Hempty R W HR HW), elements_empty in Hperm.
      apply Permutation_nil_r in Hperm. by destruct pre.
    + rewrite Hatt. apply Permutation_nil_r.
      by rewrite (Hdelete (R ∖ W)), (Hempty R W HR HW), elements_empty.
  - destruct (run_outcome env σ' Hfilter)
      as [e _ _ Hfinal _ _ _
         |R W pre img post e HR HW Hl _ _ _ _
         |R W HR HW _ _ [_ Hreg]].
    + done.
    + pose proof (Hdelete (R ∖ W)) as Hperm.
      rewrite Hl, (Hempty R W HR HW), elements_empty in Hperm.
      apply Permutation_nil_r in Hperm. by destruct pre.
    + assert (range_delete env (R ∖ W) = []) as Hnil.
      { apply Permutation_nil_r.
        by rewrite (Hdelete (R ∖ W)), (Hempty R W HR HW), elements_empty. }
      rewrite Hnil in Hreg. apply set_eq. intros [repo tag].
      rewrite Hreg. split; [by intros [? _] |].
      intros ?. split; [done |]. by intros ? []%elem_of_nil.
  - intros R W HR HW. rewrite unreferenced_difference by done. by apply Hempty.
Qed.

Lemma run_idempotent_witness :
  let once := run sample.quiet sample.stored in
  res once = Ok ()
  ∧ attempts (trace once)
    = ["ctr.lesiw.dev/c:v3"; "ctr.lesiw.dev/b:v2"; "ctr.lesiw.dev/d:v4"]
  ∧ attempts (trace (run sample.quiet (final once))) = []
  ∧ final (run sample.quiet (final once)) = final once
  ∧ ∀ R W,
      res (fetchRegistryImages sample.quiet (final once)) = Ok R →
      res (fetchPodImages sample.quiet (final once)) = Ok W →
      unreferenced (range_filter sample.quiet R) R W = ∅.
Proof.
  intros once.
  split; [vm_compute; reflexivity |].
  split; [vm_compute; reflexivity |].
  apply (run_idempotent sample.quiet sample.stored (final once) (trace once)
           range_ok_elements range_ok_elements).
  - intros repo tag Hin. unfold sample.stored in Hin.
    rewrite !elem_of_union, !elem_of_singleton in Hin.
    destruct Hin as [[[Hin|Hin]|Hin]|Hin];
      injection Hin as -> ->; reflexivity.
  - vm_compute. reflexivity.
Defined.

End run_claims.


(** * Further properties *)

(** ** [deleteImage], whatever the string *)

Section deleteImage_more.

Import strings.

(** An error of [deleteImage] leaves the registry as it was; without an
    error the string was cut into a repository and a tag, that tag alone is
    gone, one request was sent and the deletion is logged. *)
Theorem deleteImage_outcome (env : Env) (img : string) (σ : registry) :
  (∀ e, res (deleteImage env img σ) = Err e →
        final (deleteImage env img σ) = σ)
  ∧ (res (deleteImage env img σ) = Ok () →
     ∃ repo tag,
       parsed img = Some (repo, tag)
       ∧ final (deleteImage env img σ) = σ ∖ {[ (repo, tag) ]}
       ∧ trace (deleteImage env img σ)
         = [EvDeleteImage img;
            EvTagDelete {| Scheme := "reg"; Registry := "registry:5000";
                           Repository := repo; Tag := tag |};
            EvInfo "deleted image" [("image", img)]]).
Proof.
  destruct (Cut img "/") as [[host repotag] [|]] eqn:Hcut1.
  - destruct (Cut repotag ":") as [[repo tag] [|]] eqn:Hcut2.
    + pose proof (deleteImage_parsed env img host repotag repo tag σ
                    Hcut1 Hcut2) as Heq. simpl in Heq. rewrite Heq.
      destruct (TagDelete_err env σ repo tag) as [e|]; (split; [done |]).
      * done.
      * intros _. exists repo, tag. split; [|done]. by eapply parsed_cuts.
    + rewrite (deleteImage_no_tag env img host repotag repo tag σ Hcut1 Hcut2).
      done.
  - by rewrite (deleteImage_no_registry env img host repotag σ Hcut1).
Qed.

Lemma deleteImage_outcome_witness :
  final (deleteImage sample.stuck "ctr.lesiw.dev/b:v2" sample.stored)
  = sample.stored
  ∧ ∃ repo tag,
      parsed "ctr.lesiw.dev/c:v3" = Some (repo, tag)
      ∧ final (deleteImage sample.stuck "ctr.lesiw.dev/c:v3" sample.stored)
        = sample.stored ∖ {[ (repo, tag) ]}
      ∧ trace (deleteImage sample.stuck "ctr.lesiw.dev/c:v3" sample.stored)
        = [EvDeleteImage "ctr.lesiw.dev/c:v3";
           EvTagDelete {| Scheme := "reg"; Registry := "registry:5000";
                          Repository := repo; Tag := tag |};
           EvInfo "deleted image" [("image", "ctr.lesiw.dev/c:v3")]].
Proof.
  split.
  - apply (proj1 (deleteImage_outcome sample.stuck "ctr.lesiw.dev/b:v2"
                    sample.stored)
             (ErrorfW "could not delete %q: %w" ["ctr.lesiw.dev/b:v2"]
                      (ApiError "denied"))).
    vm_compute. reflexivity.
  - apply (proj2 (deleteImage_outcome sample.stuck "ctr.lesiw.dev/c:v3"
                    sample.stored)).
    vm_compute. reflexivity.
Defined.

(** A request [deleteImage] sends tells how the string was built: it is for
    the registry ["registry:5000"], and the string is some host without
    ['/'], a ['/'], the repository of the request, which has no [':'], a
    [':'] and the tag of the request.  No more than one request is sent. *)
Theorem deleteImage_request_sound (env : Env) (img : string) (σ : registry)
    (r : Ref) :
  r ∈ requests (trace (deleteImage env img σ)) →
  requests (trace (deleteImage env img σ)) = [r]
  ∧ Scheme r = "reg" ∧ Registry r = "registry:5000"
  ∧ (":"%char ∉ chars (Repository r))
  ∧ ∃ host, ("/"%char ∉ chars host)
            ∧ img = host +:+ "/" +:+ Repository r +:+ ":" +:+ Tag r.
Proof.
  destruct (Cut img "/") as [[host repotag] [|]] eqn:Hcut1.
  - destruct (Cut repotag ":") as [[repo tag] [|]] eqn:Hcut2.
    + pose proof (deleteImage_parsed env img host repotag repo tag σ
                    Hcut1 Hcut2) as Heq. simpl in Heq. rewrite Heq.
      apply Cut_found in Hcut1 as [-> Hhost].
      apply Cut_found in Hcut2 as [-> Hrepo].
      destruct (TagDelete_err env σ repo tag) as [e|];
        intros ->%list_elem_of_singleton; simpl;
        (repeat split; try done); by exists host.
    + rewrite (deleteImage_no_tag env img host repotag repo tag σ Hcut1 Hcut2).
      by intros []%elem_of_nil.
  - rewrite (deleteImage_no_registry env img host repotag σ Hcut1).
    by intros []%elem_of_nil.
Qed.

Lemma deleteImage_request_sound_witness :
  let r := {| Scheme := "reg"; Registry := "registry:5000";
              Repository := "lesiw/reggc"; Tag := "latest" |} in
  let img := "ctr.lesiw.dev/lesiw/reggc:latest" in
  requests (trace (deleteImage sample.quiet img sample.stored)) = [r]
  ∧ Scheme r = "reg" ∧ Registry r = "registry:5000"
  ∧ (":"%char ∉ chars (Repository r))
  ∧ ∃ host, ("/"%char ∉ chars host)
            ∧ img = host +:+ "/" +:+ Repository r +:+ ":" +:+ Tag r.
Proof.
  intros r img.
  apply (deleteImage_request_sound sample.quiet img sample.stored r).
  vm_compute. left.
Defined.

(** Composing an image as [fetchRegistryImages] does and handing it to
    [deleteImage] asks for the repository and the tag it was composed from
    exactly when the repository name has no [':']; what the tag holds does
    not matter. *)
Theorem compose_then_delete (env : Env) (repo tag : string) (σ : registry) :
  requests (trace (deleteImage env ("ctr.lesiw.dev/" +:+ repo +:+ ":" +:+ tag)
                               σ))
  = [ {| Scheme := "reg"; Registry := "registry:5000";
         Repository := repo; Tag := tag |} ]
  ↔ ":"%char ∉ chars repo.
Proof.
  destruct (Cut_repotag repo tag) as (repo' & tag' & Hcut).
  pose proof (deleteImage_parsed env _ _ _ _ _ σ (Cut_canonical repo tag) Hcut)
    as Heq. simpl in Heq. rewrite Heq. split.
  - intros Hreq. apply Cut_found in Hcut as [_ Hrepo'].
    by destruct (TagDelete_err env σ repo' tag'); injection Hreq as <- <-.
  - intros Hrepo. rewrite (Cut_repo repo tag Hrepo) in Hcut.
    injection Hcut as <- <-. by destruct (TagDelete_err env σ repo tag).
Qed.

Lemma compose_then_delete_witness :
  (requests (trace (deleteImage sample.quiet
                      ("ctr.lesiw.dev/" +:+ "lesiw/reggc" +:+ ":" +:+ "v1:rc")
                      sample.stored))
   = [ {| Scheme := "reg"; Registry := "registry:5000";
          Repository := "lesiw/reggc"; Tag := "v1:rc" |} ])
  ∧ ":"%char ∈ chars "a:b".
Proof.
  split.
  - apply (proj2 (compose_then_delete sample.quiet "lesiw/reggc" "v1:rc"
                    sample.stored)).
    by_evaluation.
  - destruct (decide (":"%char ∈ chars "a:b")) as [Hin|Hout]; [exact Hin |].
    exfalso.
    pose proof (proj2 (compose_then_delete sample.quiet "a:b" "c"
                         sample.stored) Hout) as Hreq.
    vm_compute in Hreq. discriminate Hreq.
Defined.

End deleteImage_more.

(** ** [gcRegistry], beyond the choice of the transport *)

Section gcRegistry_more.

(** [gcRegistry] succeeds exactly when both executors could be built and
    either the WebSocket stream ended without error, or it ended with an
    error that is fallen back from and the SPDY stream then ended without
    error.  The SPDY result is final: nothing is tried after it. *)
Theorem gcRegistry_succeeds_iff (env : Env) (σ : registry) :
  res (gcRegistry env σ) = Ok ()
  ↔ NewSPDYExecutor_err env = None ∧ NewWebSocketExecutor_err env = None
    ∧ ((ws_stream env).2 = None
       ∨ (ws_falls_back env = true ∧ (spdy_stream env).2 = None)).
Proof.
  rewrite gcRegistry_eq.
  destruct (NewSPDYExecutor_err env); [by split; [|intros [? _]] |].
  destruct (NewWebSocketExecutor_err env); [by split; [|intros (_ & ? & _)] |].
  unfold ws_falls_back.
  destruct (ws_stream env) as [out [e|]]; simpl.
  - destruct (IsUpgradeFailure env e || IsHTTPSProxyError env e); simpl.
    + destruct (spdy_stream env) as [out' [e'|]]; simpl.
      * split; [done |]. by intros (_ & _ & [|[_ ?]]).
      * split; [|done]. intros _. split; [done |]. split; [done |]. by right.
    + split; [done |]. by intros (_ & _ & [|[? _]]).
  - split; [|done]. intros _. split; [done |]. split; [done |]. by left.
Qed.

Lemma gcRegistry_succeeds_iff_witness :
  res (gcRegistry sample.ws_refused sample.stored) = Ok ()
  ∧ (ws_stream sample.ws_refused).2
    = Some (ApiError "unable to upgrade connection").
Proof.
  split; [|reflexivity].
  apply (proj2 (gcRegistry_succeeds_iff sample.ws_refused sample.stored)).
  split; [reflexivity |]. split; [reflexivity |]. right. by split.
Defined.

(** When an executor cannot be built nothing is streamed and the error is
    returned wrapped; the SPDY executor is built first, so its error is the
    one returned when both fail. *)
Theorem gcRegistry_setup_failure (env : Env) (σ : registry) :
  (∀ e, NewSPDYExecutor_err env = Some e →
        gcRegistry env σ
        = (Err (ErrorfW "could not create spdy executor: %w" [] e), σ, []))
  ∧ (∀ e, NewSPDYExecutor_err env = None →
          NewWebSocketExecutor_err env = Some e →
          gcRegistry env σ
          = (Err (ErrorfW "failed to create websocket executor: %w" [] e),
             σ, [])).
Proof.
  split.
  - intros e Hspdy. by rewrite gcRegistry_eq, Hspdy.
  - intros e Hspdy Hws. by rewrite gcRegistry_eq, Hspdy, Hws.
Qed.

Lemma gcRegistry_setup_failure_witness :
  gcRegistry (with_executors (Some (ApiError "no transport"))
                             (Some (ApiError "bad url")) sample.quiet)
             sample.stored
  = (Err (ErrorfW "could not create spdy executor: %w" []
                  (ApiError "no transport")), sample.stored, [])
  ∧ gcRegistry (with_executors None (Some (ApiError "bad url")) sample.quiet)
               sample.stored
    = (Err (ErrorfW "failed to create websocket executor: %w" []
                    (ApiError "bad url")), sample.stored, []).
Proof.
  split.
  - apply (proj1 (gcRegistry_setup_failure
                    (with_executors (Some (ApiError "no transport"))
                                    (Some (ApiError "bad url")) sample.quiet)
                    sample.stored)).
    reflexivity.
  - apply (proj2 (gcRegistry_setup_failure
                    (with_executors None (Some (ApiError "bad url"))
                                    sample.quiet)
                    sample.stored)); reflexivity.
Defined.

(** When the command fails, the error of the transport streamed through
    last is returned wrapped; it carries what the transports wrote, the
    WebSocket output followed by the SPDY output, exactly when that is not
    empty.  When the command succeeds, the completion is logged. *)
Theorem gcRegistry_reports_output (env : Env) (σ : registry) :
  NewSPDYExecutor_err env = None → NewWebSocketExecutor_err env = None →
  let out := if ws_falls_back env
             then (ws_stream env).1 +:+ (spdy_stream env).1
             else (ws_stream env).1 in
  let err := if ws_falls_back env then (spdy_stream env).2
             else (ws_stream env).2 in
  match err with
  | Some e =>
      res (gcRegistry env σ)
      = Err (if bool_decide (out = "")
             then ErrorfW "could not exec registry garbage-collect: %w" [] e
             else ErrorfW "could not exec registry garbage-collect: %w\n---\n%s"
                          [out] e)
  | None =>
      res (gcRegistry env σ) = Ok ()
      ∧ last (trace (gcRegistry env σ)) = Some (EvInfo "gc completed" [])
  end.
Proof.
  intros Hspdy Hws out err. subst out err.
  rewrite gcRegistry_eq, Hspdy, Hws.
  assert (∀ s : string,
            bool_decide (0 < String.length s)%nat = negb (bool_decide (s = "")))
    as Hlen by (by intros []).
  destruct (ws_falls_back env); simpl.
  - destruct (spdy_stream env).2 as [e|]; simpl; [|done].
    rewrite Hlen. by case_bool_decide.
  - destruct (ws_stream env).2 as [e|]; simpl; [|done].
    rewrite Hlen. by case_bool_decide.
Qed.

Lemma gcRegistry_reports_output_witness :
  res (gcRegistry gc_fails sample.stored)
  = Err (ErrorfW "could not exec registry garbage-collect: %w\n---\n%s"
                 ["failed to garbage collect: unknown blob"]
                 (ApiError "command terminated with exit code 1"))
  ∧ res (gcRegistry sample.ws_unauthorized sample.stored)
    = Err (ErrorfW "could not exec registry garbage-collect: %w" []
                   (ApiError "unauthorized")).
Proof.
  split.
  - exact (gcRegistry_reports_output gc_fails sample.stored eq_refl eq_refl).
  - exact (gcRegistry_reports_output sample.ws_unauthorized sample.stored
             eq_refl eq_refl).
Defined.

End gcRegistry_more.

(** ** [run], beyond the set it deletes *)

Section run_more.

Import strings.

Lemma declared_iff (env : Env) (σ : registry) (W : stringset) (img : string) :
  res (fetchPodImages env σ) = Ok W → img ∈ W ↔ declared env img.
Proof. apply elem_of_podimgs. Qed.

(** The tags a cycle removes are those some images it called [deleteImage]
    with are cut into; these images are of the inventory and no pod declares
    them. *)
Lemma run_removes (env : Env) (σ : registry) :
  range_ok (range_filter env) → range_ok (range_delete env) →
  ∃ imgs,
    deleted imgs σ (final (run env σ))
    ∧ ∀ img, img ∈ imgs →
        img ∈ attempts (trace (run env σ))
        ∧ (∃ repo tag, (repo, tag) ∈ σ
                       ∧ img = "ctr.lesiw.dev/" +:+ repo +:+ ":" +:+ tag)
        ∧ ¬ declared env img.
Proof.
  intros Hfilter Hdelete.
  assert (∀ R W img,
            res (fetchRegistryImages env σ) = Ok R →
            res (fetchPodImages env σ) = Ok W →
            img ∈ range_delete env (R ∖ W) →
            (∃ repo tag, (repo, tag) ∈ σ
                         ∧ img = "ctr.lesiw.dev/" +:+ repo +:+ ":" +:+ tag)
            ∧ ¬ declared env img) as Hunref.
  { intros R W img HR HW Hin.
    apply (elem_of_range (range_delete env)) in Hin; [|done].
    apply elem_of_difference in Hin as [HinR HoutW]. split.
    - by apply (elem_of_inventory env σ R img HR).
    - by rewrite <- (declared_iff env σ W img HW). }
  destruct (run_outcome env σ Hfilter)
    as [e _ _ Hfinal _ _ _
       |R W pre img post e HR HW Hl _ Hatt _ Hdel
       |R W HR HW _ Hatt Hdel].
  - exists []. rewrite Hfinal. split; [apply deleted_nil |].
    by intros ? []%elem_of_nil.
  - exists pre. split; [done |]. intros img' Hin. split.
    + rewrite Hatt. apply elem_of_app. by left.
    + apply (Hunref R W img' HR HW). rewrite Hl. apply elem_of_app. by left.
  - exists (range_delete env (R ∖ W)). split; [done |]. intros img Hin.
    split; [by rewrite Hatt | by apply (Hunref R W)].
Qed.

Lemma run_keeps (env : Env) (σ : registry) (repo tag : string) :
  range_ok (range_filter env) → range_ok (range_delete env) →
  (repo, tag) ∈ σ →
  declared env ("ctr.lesiw.dev/" +:+ repo +:+ ":" +:+ tag) →
  (repo, tag) ∈ final (run env σ).
Proof.
  intros Hfilter Hdelete Hin Hdecl.
  destruct (run_removes env σ Hfilter Hdelete) as (imgs & [_ Hreg] & Himgs).
  apply Hreg. split; [done |]. intros img Himg Hparsed.
  destruct (Himgs img Himg) as (_ & (repo' & tag' & _ & ->) & Hundecl).
  apply parsed_canonical_inv in Hparsed. by rewrite Hparsed in Hundecl.
Qed.

Lemma run_shrinks (env : Env) (σ : registry) :
  range_ok (range_filter env) → range_ok (range_delete env) →
  final (run env σ) ⊆ σ.
Proof.
  intros Hfilter Hdelete.
  destruct (run_removes env σ Hfilter Hdelete) as (imgs & [_ Hreg] & _).
  intros [repo tag] Hin. by apply Hreg in Hin as [? _].
Qed.

(** With every image of the registry declared by a pod, a cycle calls
    [deleteImage] with nothing and leaves the registry as it is. *)
Lemma run_nothing_to_delete (env : Env) (σ : registry) :
  range_ok (range_filter env) → range_ok (range_delete env) →
  (∀ repo tag, (repo, tag) ∈ σ →
               declared env ("ctr.lesiw.dev/" +:+ repo +:+ ":" +:+ tag)) →
  attempts (trace (run env σ)) = [] ∧ final (run env σ) = σ.
Proof.
  intros Hfilter Hdelete Hall.
  assert (∀ R W,
            res (fetchRegistryImages env σ) = Ok R →
            res (fetchPodImages env σ) = Ok W →
            range_delete env (R ∖ W) = []) as Hnil.
  { intros R W HR HW. apply Permutation_nil_r. rewrite (Hdelete (R ∖ W)).
    replace (R ∖ W) with (∅ : stringset); [by rewrite elements_empty |].
    symmetry. apply set_eq. intros img. rewrite elem_of_difference.
    split; [|by intros []%not_elem_of_empty].
    intros [(repo & tag & Hin & ->)%(elem_of_inventory env σ R _ HR) Hout].
    destruct Hout. apply (declared_iff env σ W _ HW). by apply Hall. }
  destruct (run_outcome env σ Hfilter)
    as [e _ _ Hfinal Hatt _ _
       |R W pre img post e HR HW Hl _ _ _ _
       |R W HR HW _ Hatt [_ Hreg]].
  - done.
  - rewrite (Hnil R W HR HW) in Hl. by destruct pre.
  - rewrite (Hnil R W HR HW) in Hatt, Hreg. split; [done |].
    apply set_eq. intros [repo tag]. rewrite Hreg.
    split; [by intros [? _] |]. intros ?. split; [done |].
    by intros ? []%elem_of_nil.
Qed.

(** After a cycle without error on a registry whose images decompose, the
    registry holds the tags whose image a pod declares, and no other. *)
Lemma run_leaves_declared (env : Env) (σ : registry) :
  range_ok (range_filter env) → range_ok (range_delete env) →
  (∀ repo tag,
     (repo, tag) ∈ σ →
     parsed ("ctr.lesiw.dev/" +:+ repo +:+ ":" +:+ tag) = Some (repo, tag)) →
  res (run env σ) = Ok () →
  ∀ repo tag,
    (repo, tag) ∈ final (run env σ) ↔
    (repo, tag) ∈ σ ∧ declared env ("ctr.lesiw.dev/" +:+ repo +:+ ":" +:+ tag).
Proof.
  intros Hfilter Hdelete Hwf Hok repo tag. split.
  - intros Hin.
    destruct (run_outcome env σ Hfilter)
      as [e Hres _ _ _ _ _
         |R W pre img post e _ _ _ Hres _ _ _
         |R W HR HW _ _ [_ Hreg]];
      [by rewrite Hok in Hres | by rewrite Hok in Hres |].
    destruct (proj1 (Hreg repo tag) Hin) as [Hin' Hno]. split; [done |].
    apply (declared_iff env σ W _ HW).
    destruct (decide ("ctr.lesiw.dev/" +:+ repo +:+ ":" +:+ tag ∈ W))
      as [?|Hout]; [done |].
    destruct (Hno ("ctr.lesiw.dev/" +:+ repo +:+ ":" +:+ tag)).
    + apply (elem_of_range (range_delete env)); [done |].
      apply elem_of_difference. split; [|done].
      apply (elem_of_inventory env σ R _ HR). by exists repo, tag.
    + by apply Hwf.
  - intros [Hin Hdecl]. by apply run_keeps.
Qed.

End run_more.

Section run_extras.

Import strings.

(** A cycle that cannot get its configuration, its client, the registry
    inventory or the pods ends with that error, wrapped, before anything is
    deleted: [deleteImage] is not called, nothing is streamed and the
    registry is as it was.  The four are tried in this order. *)
Theorem run_fetch_failure (env : Env) (σ : registry) :
  (∀ e, InClusterConfig_err env = Some e →
        run env σ
        = (Err (ErrorfW "could not get cluster config: %w" [] e), σ, []))
  ∧ (∀ e, InClusterConfig_err env = None → NewForConfig_err env = Some e →
          run env σ
          = (Err (ErrorfW "could not make kubernetes client: %w" [] e), σ, []))
  ∧ (∀ e, InClusterConfig_err env = None → NewForConfig_err env = None →
          res (fetchRegistryImages env σ) = Err e →
          res (run env σ)
          = Err (ErrorfW "could not fetch registry images: %w" [] e)
          ∧ final (run env σ) = σ
          ∧ attempts (trace (run env σ)) = []
          ∧ requests (trace (run env σ)) = []
          ∧ streams (trace (run env σ)) = [])
  ∧ (∀ R e, InClusterConfig_err env = None → NewForConfig_err env = None →
            res (fetchRegistryImages env σ) = Ok R →
            PodsList_err env = Some e →
            res (run env σ) = Err (ErrorfW "could not fetch pod images: %w" [] e)
            ∧ final (run env σ) = σ
            ∧ attempts (trace (run env σ)) = []
            ∧ requests (trace (run env σ)) = []
            ∧ streams (trace (run env σ)) = []).
Proof.
  pose proof (run_eq env σ) as Hrun.
  split; [|split; [|split]].
  - intros e Hconfig. by rewrite Hconfig in Hrun.
  - intros e Hconfig Hclient. by rewrite Hconfig, Hclient in Hrun.
  - intros e Hconfig Hclient Hres. rewrite Hconfig, Hclient in Hrun.
    destruct (fetchRegistryImages_frame env σ) as (Hσ1 & Hatt1 & Hreq1 & Hstr1).
    destruct (fetchRegistryImages env σ) as [[[R|e'] σ1] t1];
      unfold res, final, trace in Hres, Hσ1, Hatt1, Hreq1, Hstr1;
      simpl in *; [done |].
    injection Hres as ->. subst σ1. by rewrite Hrun.
  - intros R e Hconfig Hclient Hres Hpods. rewrite Hconfig, Hclient in Hrun.
    destruct (fetchRegistryImages_frame env σ) as (Hσ1 & Hatt1 & Hreq1 & Hstr1).
    destruct (fetchRegistryImages env σ) as [[[R'|e'] σ1] t1];
      unfold res, final, trace in Hres, Hσ1, Hatt1, Hreq1, Hstr1;
      simpl in *; [|done].
    subst σ1. rewrite fetchPodImages_eq, Hpods in Hrun. rewrite Hrun.
    unfold res, final, trace; simpl.
    by rewrite attempts_app, requests_app, streams_app, Hatt1, Hreq1, Hstr1.
Qed.

Lemma run_fetch_failure_witness :
  run (with_config (Some (ApiError "not in a cluster")) None sample.quiet)
      sample.stored
  = (Err (ErrorfW "could not get cluster config: %w" []
                  (ApiError "not in a cluster")), sample.stored, [])
  ∧ run (with_config None (Some (ApiError "bad config")) sample.quiet)
        sample.stored
    = (Err (ErrorfW "could not make kubernetes client: %w" []
                    (ApiError "bad config")), sample.stored, [])
  ∧ (final (run sample.no_tags sample.stored) = sample.stored
     ∧ attempts (trace (run sample.no_tags sample.stored)) = [])
  ∧ (res (run sample.no_pods sample.stored)
     = Err (ErrorfW "could not fetch pod images: %w" [] (ApiError "forbidden"))
     ∧ final (run sample.no_pods sample.stored) = sample.stored
     ∧ attempts (trace (run sample.no_pods sample.stored)) = []).
Proof.
  split; [|split; [|split]].
  - apply (proj1 (run_fetch_failure
                    (with_config (Some (ApiError "not in a cluster")) None
                                 sample.quiet) sample.stored)).
    reflexivity.
  - apply (proj1 (proj2 (run_fetch_failure
                           (with_config None (Some (ApiError "bad config"))
                                        sample.quiet) sample.stored)));
      reflexivity.
  - destruct (proj1 (proj2 (proj2 (run_fetch_failure sample.no_tags
                                     sample.stored)))
                (ErrorfW "could not get tags for repository %q: %w" ["b"]
                         (ApiError "not found")) eq_refl eq_refl)
      as (_ & Hfinal & Hattempts & _); [vm_compute; reflexivity |].
    exact (conj Hfinal Hattempts).
  - destruct (proj2 (proj2 (proj2 (run_fetch_failure sample.no_pods
                                     sample.stored)))
                (list_to_set ["ctr.lesiw.dev/a:v1"; "ctr.lesiw.dev/b:v2";
                              "ctr.lesiw.dev/c:v3"; "ctr.lesiw.dev/d:v4"])
                (ApiError "forbidden") eq_refl eq_refl)
      as (Hres & Hfinal & Hattempts & _);
      [vm_compute; reflexivity | reflexivity |].
    exact (conj Hres (conj Hfinal Hattempts)).
Defined.

(** The garbage collector comes last: the trace of a cycle is a part in
    which nothing is streamed followed by a part in which nothing is
    deleted, and when something was streamed every image left by the first
    loop had been passed to [deleteImage] and its tag removed. *)
Theorem run_gc_last (env : Env) (σ : registry) :
  range_ok (range_filter env) →
  (∃ before after,
     trace (run env σ) = before ++ after
     ∧ streams before = []
     ∧ attempts after = [] ∧ requests after = [])
  ∧ (streams (trace (run env σ)) ≠ [] →
     ∃ R W,
       res (fetchRegistryImages env σ) = Ok R
       ∧ res (fetchPodImages env σ) = Ok W
       ∧ attempts (trace (run env σ)) = range_delete env (R ∖ W)
       ∧ deleted (range_delete env (R ∖ W)) σ (final (run env σ))).
Proof.
  intros Hfilter. split.
  - pose proof (run_eq env σ) as Hrun.
    destruct (InClusterConfig_err env) as [e|].
    { exists [], []. by rewrite Hrun. }
    destruct (NewForConfig_err env) as [e|].
    { exists [], []. by rewrite Hrun. }
    destruct (fetchRegistryImages_frame env σ) as (Hσ1 & Hatt1 & Hreq1 & Hstr1).
    destruct (fetchRegistryImages env σ) as [[[R|e] σ1] t1];
      unfold final, trace in Hσ1, Hatt1, Hreq1, Hstr1; simpl in *; subst σ1.
    2: { exists t1, []. rewrite Hrun. unfold trace; simpl.
         by rewrite app_nil_r. }
    rewrite fetchPodImages_eq in Hrun.
    destruct (PodsList_err env) as [e|].
    { exists (t1 ++ [EvPodsList ""]), []. rewrite Hrun. unfold trace; simpl.
      by rewrite app_nil_r, streams_app, Hstr1. }
    rewrite unreferenced_difference in Hrun by done.
    set (W := foldl _ ∅ (cluster env)) in *.
    destruct (delete_loop_cases env (range_delete env (R ∖ W)) σ)
      as [(σ' & t & Hloop & Hatt & Hstr & Hdel)
         |(pre & img & post & e & σ' & t & Hl & Hloop & Hatt & Hstr & Hdel)];
      rewrite Hloop in Hrun.
    + destruct (gcRegistry_frame env σ') as (Hσ4 & Hatt4 & Hreq4).
      destruct (gcRegistry env σ') as [[gc σ4] t4];
        unfold final, trace in Hσ4, Hatt4, Hreq4; simpl in *.
      exists (t1 ++ EvPodsList "" :: t), t4.
      assert (trace (run env σ) = t1 ++ EvPodsList "" :: t ++ t4) as ->
        by (rewrite Hrun; by destruct gc).
      split; [by rewrite <- app_assoc |].
      by rewrite streams_app, streams_cons, Hstr1, Hstr.
    + exists (t1 ++ EvPodsList "" :: t), []. rewrite Hrun. unfold trace; simpl.
      by rewrite app_nil_r, streams_app, streams_cons, Hstr1, Hstr.
  - intros Hstreamed.
    destruct (run_outcome env σ Hfilter)
      as [e _ _ _ _ _ Hstr
         |R W pre img post e _ _ _ _ _ Hstr _
         |R W HR HW _ Hatt Hdel]; [done | done |].
    by exists R, W.
Qed.

Lemma run_gc_last_witness :
  streams (trace (run sample.quiet sample.stored)) ≠ []
  ∧ ∃ R W,
      res (fetchRegistryImages sample.quiet sample.stored) = Ok R
      ∧ res (fetchPodImages sample.quiet sample.stored) = Ok W
      ∧ attempts (trace (run sample.quiet sample.stored))
        = range_delete sample.quiet (R ∖ W)
      ∧ deleted (range_delete sample.quiet (R ∖ W)) sample.stored
                (final (run sample.quiet sample.stored)).
Proof.
  assert (streams (trace (run sample.quiet sample.stored)) ≠ []) as Hstreamed
    by (vm_compute; discriminate).
  split; [exact Hstreamed |].
  exact (proj2 (run_gc_last sample.quiet sample.stored range_ok_elements)
           Hstreamed).
Defined.

(** A cycle never adds a tag to the registry and never removes a tag whose
    image some container of some pod declares, whatever fails on the way. *)
Theorem run_keeps_declared_tags (env : Env) (σ : registry) :
  range_ok (range_filter env) → range_ok (range_delete env) →
  final (run env σ) ⊆ σ
  ∧ ∀ repo tag,
      (repo, tag) ∈ σ →
      declared env ("ctr.lesiw.dev/" +:+ repo +:+ ":" +:+ tag) →
      (repo, tag) ∈ final (run env σ).
Proof.
  intros Hfilter Hdelete. split; [by apply run_shrinks |].
  intros repo tag. by apply run_keeps.
Qed.

Lemma run_keeps_declared_tags_witness :
  final (run sample.stuck sample.stored) ⊆ sample.stored
  ∧ ("a", "v1") ∈ final (run sample.stuck sample.stored).
Proof.
  destruct (run_keeps_declared_tags sample.stuck sample.stored
              range_ok_elements range_ok_elements) as [Hsub Hkept].
  split; [exact Hsub |]. apply Hkept; [by_evaluation |].
  exists {| Namespace := "default";
            Containers := [ {| Image := "ctr.lesiw.dev/a:v1" |} ] |},
         {| Image := "ctr.lesiw.dev/a:v1" |}.
  split; [left | split; [left | reflexivity]].
Defined.

(** A tag a cycle removed is one an image passed to [deleteImage] is cut
    into, and that image is of the registry inventory and declared by no
    container. *)
Theorem run_removes_unreferenced_only (env : Env) (σ : registry)
    (repo tag : string) :
  range_ok (range_filter env) → range_ok (range_delete env) →
  (repo, tag) ∈ σ → (repo, tag) ∉ final (run env σ) →
  ∃ img,
    img ∈ attempts (trace (run env σ))
    ∧ parsed img = Some (repo, tag)
    ∧ (∃ repo' tag', (repo', tag') ∈ σ
                     ∧ img = "ctr.lesiw.dev/" +:+ repo' +:+ ":" +:+ tag')
    ∧ ¬ declared env img.
Proof.
  intros Hfilter Hdelete Hin Hout.
  destruct (run_removes env σ Hfilter Hdelete) as (imgs & [_ Hreg] & Himgs).
  destruct (decide (Exists (λ img, parsed img = Some (repo, tag)) imgs))
    as [(img & Himg & Hparsed)%Exists_exists|Hnone].
  - exists img. destruct (Himgs img Himg) as (? & ? & ?). done.
  - destruct Hout. apply Hreg. split; [done |].
    intros img Himg Hparsed. apply Hnone, Exists_exists. by exists img.
Qed.

Lemma run_removes_unreferenced_only_witness :
  ("c", "v3") ∈ sample.stored
  ∧ (("c", "v3") ∉ final (run sample.stuck sample.stored))
  ∧ ∃ img,
      img ∈ attempts (trace (run sample.stuck sample.stored))
      ∧ parsed img = Some ("c", "v3")
      ∧ (∃ repo' tag', (repo', tag') ∈ sample.stored
                       ∧ img = "ctr.lesiw.dev/" +:+ repo' +:+ ":" +:+ tag')
      ∧ ¬ declared sample.stuck img.
Proof.
  assert (("c", "v3") ∈ sample.stored) as Hin by by_evaluation.
  assert (("c", "v3") ∉ final (run sample.stuck sample.stored)) as Hout
    by by_evaluation.
  split; [exact Hin |]. split; [exact Hout |].
  exact (run_removes_unreferenced_only sample.stuck sample.stored "c" "v3"
           range_ok_elements range_ok_elements Hin Hout).
Defined.

End run_extras.

Section run_edges.

Import strings.

(** When every image of the registry is declared by some container, a cycle
    calls [deleteImage] with nothing and leaves the registry as it is. *)
Theorem run_all_declared (env : Env) (σ : registry) :
  range_ok (range_filter env) → range_ok (range_delete env) →
  (∀ repo tag, (repo, tag) ∈ σ →
               declared env ("ctr.lesiw.dev/" +:+ repo +:+ ":" +:+ tag)) →
  attempts (trace (run env σ)) = [] ∧ final (run env σ) = σ.
Proof.
  intros Hfilter Hdelete Hall.
  assert (∀ R W,
            res (fetchRegistryImages env σ) = Ok R →
            res (fetchPodImages env σ) = Ok W → R ∖ W = ∅) as Hempty.
  { intros R W HR HW. apply set_eq. intros img. rewrite elem_of_difference.
    split; [|by intros []%not_elem_of_empty].
    intros [(repo & tag & Hin & ->)%(elem_of_inventory env σ R _ HR) Hout].
    destruct Hout. apply (declared_iff env σ W _ HW). by apply Hall. }
  assert (∀ R W,
            res (fetchRegistryImages env σ) = Ok R →
            res (fetchPodImages env σ) = Ok W →
            range_delete env (R ∖ W) = []) as Hnil.
  { intros R W HR HW. apply Permutation_nil_r.
    by rewrite (Hdelete (R ∖ W)), (Hempty R W HR HW), elements_empty. }
  destruct (run_outcome env σ Hfilter)
    as [e _ _ Hfinal Hatt _ _
       |R W pre img post e HR HW Hl _ _ _ _
       |R W HR HW _ Hatt [_ Hreg]].
  - done.
  - rewrite (Hnil R W HR HW) in Hl. by destruct pre.
  - rewrite (Hnil R W HR HW) in Hatt, Hreg. split; [done |].
    apply set_eq. intros [repo tag]. rewrite Hreg.
    split; [by intros [? _] |]. intros ?. split; [done |].
    by intros ? []%elem_of_nil.
Qed.

Lemma run_all_declared_witness :
  attempts (trace (run sample.quiet {[ ("a", "v1") ]})) = []
  ∧ final (run sample.quiet {[ ("a", "v1") ]}) = {[ ("a", "v1") ]}.
Proof.
  apply (run_all_declared sample.quiet {[ ("a", "v1") ]}
           range_ok_elements range_ok_elements).
  intros repo tag [= -> ->]%elem_of_singleton.
  exists {| Namespace := "default";
            Containers := [ {| Image := "ctr.lesiw.dev/a:v1" |} ] |},
         {| Image := "ctr.lesiw.dev/a:v1" |}.
  split; [left | split; [left | reflexivity]].
Defined.

(** After a cycle that ends without error, on a registry whose images
    decompose, the registry holds exactly the tags it held whose image some
    container declares. *)
Theorem run_success_registry (env : Env) (σ : registry) (repo tag : string) :
  range_ok (range_filter env) → range_ok (range_delete env) →
  (∀ repo tag,
     (repo, tag) ∈ σ →
     parsed ("ctr.lesiw.dev/" +:+ repo +:+ ":" +:+ tag) = Some (repo, tag)) →
  res (run env σ) = Ok () →
  (repo, tag) ∈ final (run env σ) ↔
  (repo, tag) ∈ σ ∧ declared env ("ctr.lesiw.dev/" +:+ repo +:+ ":" +:+ tag).
Proof.
  intros Hfilter Hdelete Hwf Hok. split.
  - intros Hin.
    destruct (run_outcome env σ Hfilter)
      as [e Hres _ _ _ _ _
         |R W pre img post e _ _ _ Hres _ _ _
         |R W HR HW _ _ [_ Hreg]];
      [by rewrite Hok in Hres | by rewrite Hok in Hres |].
    destruct (proj1 (Hreg repo tag) Hin) as [Hin' Hno]. split; [done |].
    apply (declared_iff env σ W _ HW).
    destruct (decide ("ctr.lesiw.dev/" +:+ repo +:+ ":" +:+ tag ∈ W))
      as [?|Hout]; [done |].
    destruct (Hno ("ctr.lesiw.dev/" +:+ repo +:+ ":" +:+ tag)).
    + apply (elem_of_range (range_delete env)); [done |].
      apply elem_of_difference. split; [|done].
      apply (elem_of_inventory env σ R _ HR). by exists repo, tag.
    + by apply Hwf.
  - intros [Hin Hdecl].
    destruct (run_removes env σ Hfilter Hdelete) as (imgs & [_ Hreg] & Himgs).
    apply Hreg. split; [done |]. intros img Himg Hparsed.
    destruct (Himgs img Himg) as (_ & (repo' & tag' & _ & ->) & Hundecl).
    apply parsed_canonical_inv in Hparsed. by rewrite Hparsed in Hundecl.
Qed.

Lemma sample_stored_decomposes (repo tag : string) :
  (repo, tag) ∈ sample.stored →
  parsed ("ctr.lesiw.dev/" +:+ repo +:+ ":" +:+ tag) = Some (repo, tag).
Proof.
  intros Hin. unfold sample.stored in Hin.
  rewrite !elem_of_union, !elem_of_singleton in Hin.
  destruct Hin as [[[Hin|Hin]|Hin]|Hin]; injection Hin as -> ->; reflexivity.
Qed.

Lemma run_success_registry_witness :
  elements (final (run sample.quiet sample.stored)) = [("a", "v1")]
  ∧ (("b", "v2") ∈ final (run sample.quiet sample.stored) ↔
     ("b", "v2") ∈ sample.stored
     ∧ declared sample.quiet ("ctr.lesiw.dev/" +:+ "b" +:+ ":" +:+ "v2")).
Proof.
  split; [vm_compute; reflexivity |].
  apply (run_success_registry sample.quiet sample.stored "b" "v2"
           range_ok_elements range_ok_elements sample_stored_decomposes).
  vm_compute. reflexivity.
Defined.

(** On an empty registry a cycle lists the repositories and the pods,
    deletes nothing and still runs the garbage collector. *)
Theorem run_empty_registry (env : Env) :
  range_ok (range_delete env) →
  InClusterConfig_err env = None → NewForConfig_err env = None →
  RepoList_err env = None → PodsList_err env = None →
  final (run env ∅) = ∅
  ∧ trace (run env ∅)
    = EvRepoList "registry:5000" :: EvPodsList "" :: trace (gcRegistry env ∅)
  ∧ res (run env ∅)
    = match res (gcRegistry env ∅) with
      | Ok _ => Ok ()
      | Err e => Err (ErrorfW "could not trigger registry gc: %w" [] e)
      end.
Proof.
  intros Hdelete Hconfig Hclient Hrepos Hpods.
  pose proof (run_eq env ∅) as Hrun.
  rewrite Hconfig, Hclient, fetchRegistryImages_eq, Hrepos in Hrun.
  assert (repositories ∅ = []) as Hnone.
  { unfold repositories. by rewrite set_map_empty, elements_empty. }
  rewrite Hnone in Hrun. cbn [for_fold] in Hrun. unfold_M.
  rewrite fetchPodImages_eq, Hpods in Hrun.
  set (W := foldl _ ∅ (cluster env)) in *.
  assert (unreferenced (range_filter env ∅) ∅ W = ∅) as Hunref.
  { apply set_eq. intros img. rewrite elem_of_unreferenced.
    split; [by intros [[]%not_elem_of_empty _] | by intros []%not_elem_of_empty]. }
  assert (range_delete env ∅ = []) as Hnil.
  { apply Permutation_nil_r. by rewrite (Hdelete ∅), elements_empty. }
  rewrite Hunref, Hnil in Hrun. unfold delete_loop in Hrun.
  cbn [for_each] in Hrun. unfold_M.
  destruct (gcRegistry_frame env ∅) as (Hfinal & _).
  destruct (gcRegistry env ∅) as [[gc σ'] t];
    unfold final in Hfinal; simpl in *; subst σ'.
  rewrite Hrun. by destruct gc as [[]|e].
Qed.

Lemma run_empty_registry_witness :
  final (run sample.quiet ∅) = ∅
  ∧ trace (run sample.quiet ∅)
    = EvRepoList "registry:5000" :: EvPodsList ""
        :: trace (gcRegistry sample.quiet ∅)
  ∧ res (run sample.quiet ∅)
    = match res (gcRegistry sample.quiet ∅) with
      | Ok _ => Ok ()
      | Err e => Err (ErrorfW "could not trigger registry gc: %w" [] e)
      end.
Proof.
  exact (run_empty_registry sample.quiet range_ok_elements
           eq_refl eq_refl eq_refl eq_refl).
Defined.

(** With no pod in the cluster every image of the registry is left by the
    first loop: [deleteImage] is called with images of the inventory in the
    order of the second loop, and with all of them when the cycle ends
    without error. *)
Theorem run_empty_cluster (env : Env) (σ : registry) (R : stringset) :
  range_ok (range_filter env) → range_ok (range_delete env) →
  cluster env = [] →
  res (fetchRegistryImages env σ) = Ok R →
  attempts (trace (run env σ)) `prefix_of` range_delete env R
  ∧ (res (run env σ) = Ok () → attempts (trace (run env σ)) ≡ₚ elements R).
Proof.
  intros Hfilter Hdelete Hnone HR.
  assert (∀ W, res (fetchPodImages env σ) = Ok W → R ∖ W = R) as Hall.
  { intros W. rewrite fetchPodImages_eq, Hnone.
    destruct (PodsList_err env); [done |]. intros [= <-].
    apply difference_empty_L. }
  destruct (run_outcome env σ Hfilter)
    as [e Hres _ _ Hatt _ _
       |R' W pre img post e HR' HW Hl Hres Hatt _ _
       |R' W HR' HW _ Hatt _].
  - rewrite Hatt, Hres. split; [apply prefix_nil | done].
  - rewrite HR in HR'. injection HR' as <-.
    rewrite (Hall W HW) in Hl. rewrite Hatt, Hres, Hl. split; [|done].
    exists post. by rewrite <- app_assoc.
  - rewrite HR in HR'. injection HR' as <-.
    rewrite (Hall W HW) in Hatt. rewrite Hatt. split; [done |].
    intros _. apply Hdelete.
Qed.

Lemma run_empty_cluster_witness :
  let env := with_cluster [] sample.quiet in
  let R : stringset :=
    list_to_set ["ctr.lesiw.dev/a:v1"; "ctr.lesiw.dev/b:v2";
                 "ctr.lesiw.dev/c:v3"; "ctr.lesiw.dev/d:v4"] in
  attempts (trace (run env sample.stored)) `prefix_of` range_delete env R
  ∧ attempts (trace (run env sample.stored)) ≡ₚ elements R
  ∧ final (run env sample.stored) = ∅.
Proof.
  intros env R.
  destruct (run_empty_cluster env sample.stored R
              range_ok_elements range_ok_elements eq_refl) as [Hprefix Hall];
    [vm_compute; reflexivity |].
  split; [exact Hprefix |]. split; [|vm_compute; reflexivity].
  apply Hall. vm_compute. reflexivity.
Defined.

End run_edges.

(** ** The loop of [main] *)

Section main_loop.

Import strings.

Lemma main_cons (env : Env) (worlds : list Env) (σ : registry) :
  main (env :: worlds) σ
  = ((main worlds (final (run env σ))).1,
     (trace (run env σ),
      match res (run env σ) with Err e => Some e | Ok _ => None end)
     :: (main worlds (final (run env σ))).2).
Proof.
  cbn [main]. destruct (run env σ) as [[err σ'] t]. unfold final, res, trace.
  simpl. by destruct (main worlds σ').
Qed.

Lemma main_app (worlds1 worlds2 : list Env) (σ : registry) :
  main (worlds1 ++ worlds2) σ
  = ((main worlds2 (main worlds1 σ).1).1,
     (main worlds1 σ).2 ++ (main worlds2 (main worlds1 σ).1).2).
Proof.
  revert σ. induction worlds1 as [|env worlds1 IH]; intros σ.
  - simpl. by destruct (main worlds2 σ).
  - rewrite <- app_comm_cons, !main_cons, IH. done.
Qed.

Lemma main_length (worlds : list Env) (σ : registry) :
  List.length (main worlds σ).2 = List.length worlds.
Proof.
  revert σ. induction worlds as [|env worlds IH]; intros σ; [done |].
  rewrite main_cons. simpl. by rewrite IH.
Qed.

(** An error does not end the loop: every cycle is run, on the registry the
    cycles before it left, whether or not they ended with an error, and its
    error, if it has one, is what is logged. *)
Theorem main_runs_every_cycle (before : list Env) (env : Env)
    (after : list Env) (σ : registry) :
  let σ' := (main before σ).1 in
  List.length (main (before ++ env :: after) σ).2
  = List.length (before ++ env :: after)
  ∧ (main (before ++ env :: after) σ).2 !! List.length before
    = Some (trace (run env σ'),
            match res (run env σ') with Err e => Some e | Ok _ => None end)
  ∧ (main (before ++ env :: after) σ).1 = (main after (final (run env σ'))).1.
Proof.
  intros σ'. subst σ'. split; [apply main_length |].
  rewrite main_app, main_cons. simpl. split; [|done].
  rewrite <- (main_length before σ). by rewrite list_lookup_middle.
Qed.

(** Over any number of cycles the registry only loses tags, and a tag whose
    image some container declares in each of the cycles is never lost. *)
Theorem main_keeps_declared_tags (worlds : list Env) (σ : registry) :
  (∀ env, env ∈ worlds →
          range_ok (range_filter env) ∧ range_ok (range_delete env)) →
  (main worlds σ).1 ⊆ σ
  ∧ ∀ repo tag,
      (repo, tag) ∈ σ →
      (∀ env, env ∈ worlds →
              declared env ("ctr.lesiw.dev/" +:+ repo +:+ ":" +:+ tag)) →
      (repo, tag) ∈ (main worlds σ).1.
Proof.
  revert σ. induction worlds as [|env worlds IH]; intros σ Hranges; [done |].
  rewrite main_cons. cbn [fst].
  destruct (Hranges env) as [Hfilter Hdelete]; [by left |].
  destruct (IH (final (run env σ))) as [Hsub Hkept].
  { intros env' ?. apply Hranges. by right. }
  split.
  - etrans; [exact Hsub | by apply run_shrinks].
  - intros repo tag Hin Hdecl. apply Hkept.
    + apply run_keeps; [done | done | done |]. apply Hdecl. by left.
    + intros env' ?. apply Hdecl. by right.
Qed.

Lemma main_keeps_declared_tags_witness :
  (main [sample.stuck; sample.no_pods; sample.quiet] sample.stored).1
  ⊆ sample.stored
  ∧ ("a", "v1")
    ∈ (main [sample.stuck; sample.no_pods; sample.quiet] sample.stored).1.
Proof.
  destruct (main_keeps_declared_tags
              [sample.stuck; sample.no_pods; sample.quiet] sample.stored)
    as [Hsub Hkept].
  { intros env Henv.
    repeat (apply elem_of_cons in Henv as [->|Henv];
            [split; apply range_ok_elements |]).
    by apply elem_of_nil in Henv. }
  split; [exact Hsub |]. apply Hkept; [by_evaluation |].
  intros env Henv.
  exists {| Namespace := "default";
            Containers := [ {| Image := "ctr.lesiw.dev/a:v1" |} ] |},
         {| Image := "ctr.lesiw.dev/a:v1" |}.
  split; [|split; [left | reflexivity]].
  repeat (apply elem_of_cons in Henv as [->|Henv]; [left |]).
  by apply elem_of_nil in Henv.
Defined.

Lemma main_nothing_to_delete (env : Env) (n : nat) (σ : registry) :
  range_ok (range_filter env) → range_ok (range_delete env) →
  (∀ repo tag, (repo, tag) ∈ σ →
               declared env ("ctr.lesiw.dev/" +:+ repo +:+ ":" +:+ tag)) →
  (main (replicate n env) σ).1 = σ
  ∧ Forall (λ cycle, attempts cycle.1 = []) (main (replicate n env) σ).2.
Proof.
  intros Hfilter Hdelete Hall. induction n as [|n [IHσ IHlog]]; [done |].
  cbn [replicate]. rewrite main_cons.
  destruct (run_nothing_to_delete env σ Hfilter Hdelete Hall) as [Hatt Hfinal].
  rewrite Hfinal. simpl. split; [done |]. by apply Forall_cons.
Qed.

(** In a world that does not change, once a cycle has ended without error
    on a registry whose images decompose, the cycles after it call
    [deleteImage] with nothing and the registry stays as that cycle left
    it, however many they are. *)
Theorem main_steady_state (env : Env) (n : nat) (σ : registry) :
  range_ok (range_filter env) → range_ok (range_delete env) →
  (∀ repo tag,
     (repo, tag) ∈ σ →
     parsed ("ctr.lesiw.dev/" +:+ repo +:+ ":" +:+ tag) = Some (repo, tag)) →
  res (run env σ) = Ok () →
  (main (replicate (S n) env) σ).1 = final (run env σ)
  ∧ Forall (λ cycle, attempts cycle.1 = [])
           (tail (main (replicate (S n) env) σ).2).
Proof.
  intros Hfilter Hdelete Hwf Hok. cbn [replicate]. rewrite main_cons.
  cbn [fst snd tail]. apply main_nothing_to_delete; [done | done |].
  intros repo tag Hin.
  by apply (run_leaves_declared env σ Hfilter Hdelete Hwf Hok) in Hin as [_ ?].
Qed.

Lemma main_steady_state_witness :
  (main (replicate 4 sample.quiet) sample.stored).1
  = final (run sample.quiet sample.stored)
  ∧ Forall (λ cycle, attempts cycle.1 = [])
           (tail (main (replicate 4 sample.quiet) sample.stored).2).
Proof.
  apply (main_steady_state sample.quiet 3 sample.stored
           range_ok_elements range_ok_elements sample_stored_decomposes).
  vm_compute. reflexivity.
Defined.


End main_loop.

(** ** The fetchers and the errors of [run] *)

Section fetch_more.

Import strings.

Lemma fetch_loop_first_failure (env : Env) (σ : registry)
    (ok : list string) (repo : string) (rest : list string) (e : error)
    (imgs : stringset) :
  (∀ r, r ∈ ok → TagList_err env r = None) →
  TagList_err env repo = Some e →
  for_fold (ok ++ repo :: rest) imgs (tags_into env) σ
  = (Err (ErrorfW "could not get tags for repository %q: %w" [repo] e), σ,
     (λ r, EvTagList {| Scheme := "reg"; Repository := r;
                        Registry := "registry:5000"; Tag := "" |})
       <$> (ok ++ [repo])).
Proof.
  intros Hok Hrepo. revert imgs.
  induction ok as [|r ok IH]; intros imgs.
  - cbn [app for_fold]. unfold mbind, M_mbind, M_bind.
    by rewrite tags_into_eq, Hrepo.
  - rewrite <- !app_comm_cons. cbn [for_fold].
    unfold mbind, M_mbind, M_bind.
    rewrite tags_into_eq, (Hok r) by (by left).
    rewrite IH by (intros r' ?; apply Hok; by right). done.
Qed.

(** [fetchRegistryImages] stops at the first repository whose tags cannot
    be listed: the tags of the repositories listed before it were asked
    for, those of the repositories after it are not, and the error names
    it. *)
Theorem fetchRegistryImages_first_failure (env : Env) (σ : registry)
    (ok : list string) (repo : string) (rest : list string) (e : error) :
  RepoList_err env = None →
  repositories σ = ok ++ repo :: rest →
  (∀ r, r ∈ ok → TagList_err env r = None) →
  TagList_err env repo = Some e →
  fetchRegistryImages env σ
  = (Err (ErrorfW "could not get tags for repository %q: %w" [repo] e), σ,
     EvRepoList "registry:5000"
     :: ((λ r, EvTagList {| Scheme := "reg"; Repository := r;
                            Registry := "registry:5000"; Tag := "" |})
           <$> (ok ++ [repo]))).
Proof.
  intros Hrepos Hlisted Hok Hrepo.
  rewrite fetchRegistryImages_eq, Hrepos, Hlisted.
  by rewrite (fetch_loop_first_failure env σ ok repo rest e ∅ Hok Hrepo).
Qed.

Lemma fetchRegistryImages_first_failure_witness :
  fetchRegistryImages sample.no_tags sample.stored
  = (Err (ErrorfW "could not get tags for repository %q: %w" ["b"]
                  (ApiError "not found")), sample.stored,
     EvRepoList "registry:5000"
     :: ((λ r, EvTagList {| Scheme := "reg"; Repository := r;
                            Registry := "registry:5000"; Tag := "" |})
           <$> (["c"; "a"] ++ ["b"]))).
Proof.
  apply (fetchRegistryImages_first_failure sample.no_tags sample.stored
           ["c"; "a"] "b" ["d"] (ApiError "not found")).
  - reflexivity.
  - vm_compute. reflexivity.
  - intros r Hr.
    repeat (apply elem_of_cons in Hr as [->|Hr]; [reflexivity |]).
    by apply elem_of_nil in Hr.
  - reflexivity.
Defined.

(** The two fetchers only list: they leave the registry as it is, call
    [deleteImage] with nothing, send no deletion request and stream
    nothing, whether they fail or not. *)
Theorem fetchers_read_only (env : Env) (σ : registry) :
  (final (fetchRegistryImages env σ) = σ
   ∧ attempts (trace (fetchRegistryImages env σ)) = []
   ∧ requests (trace (fetchRegistryImages env σ)) = []
   ∧ streams (trace (fetchRegistryImages env σ)) = [])
  ∧ (final (fetchPodImages env σ) = σ
     ∧ trace (fetchPodImages env σ) = [EvPodsList ""]).
Proof.
  split; [apply fetchRegistryImages_frame |].
  rewrite fetchPodImages_eq. by destruct (PodsList_err env).
Qed.



End fetch_more.
